(** * systemd-slack: the unit watcher of [systemd/systemd.go] and its caller
    in [main.go], as a shallow embedding.

    The watcher keeps a map from unit object paths to unit statuses, polls
    the service manager through a two-method connection interface, logs what
    appeared, changed or went away, and flushes the map to a state file.

    Effects are threaded explicitly: the file system, the lines handed to
    the logger, the payloads written by [store], the sleeps and the lines
    printed by [main.go] live in a [World]; the connection is a value with
    its own state inside the [Systemd] record.  The poll loop of [Next] has
    no exit but its error returns, so it is run with fuel, one unit per
    cycle. *)

From Stdlib.Strings Require Import Byte.
From stdpp Require Import base option list gmap strings.

Open Scope string_scope.
Open Scope list_scope.

(** ** Data model *)

(** Modelled from the spec: the declaration of [dbus.UnitStatus] belongs to
    the go-systemd library and is not part of the repository.  The record
    has the key ([Path]), the name and the status fields the watcher reads,
    together with the remaining fields the listing exposes; [JobId] is a
    [uint32]. *)
Record UnitStatus := mkUnitStatus {
  Name : string;
  Description : string;
  LoadState : string;
  ActiveState : string;
  SubState : string;
  Followed : string;
  Path : string;
  JobId : N;
  JobType : string;
  JobPath : string
}.

#[export] Instance UnitStatus_eq_dec : EqDecision UnitStatus.
Proof. solve_decision. Defined.

(** [type Unit struct { dbus.UnitStatus }] *)
Record Unit := mkUnit { Unit_UnitStatus : UnitStatus }.

#[export] Instance Unit_eq_dec : EqDecision Unit.
Proof. solve_decision. Defined.

(** [func (u *Unit) isEqual(u2 dbus.UnitStatus) bool]: struct equality,
    every field compared. *)
Definition isEqual (u : Unit) (u2 : UnitStatus) : bool :=
  bool_decide (Unit_UnitStatus u = u2).

(** [time.Duration] counts nanoseconds. *)
Definition Duration := Z.
Definition Millisecond : Duration := 1000000%Z.

Definition DefaultStateFile : string := "systemd.state".
Definition DefaultInterval : Duration := (500 * Millisecond)%Z.

(** Errors that reach the watcher: from the [os] calls, from the gzip and
    gob readers, and from the connection. *)
Inductive error :=
| ErrNotExist (path : string)
| ErrPermission (path : string)
| ErrCorrupt
| ErrConn (msg : string).

(** [os.IsNotExist] *)
Definition IsNotExist (e : error) : bool :=
  match e with ErrNotExist _ => true | _ => false end.

(** What [Decode(&sd.state)] comes to.  It writes into the map it is given
    as it goes: on success the map holds what was decoded; on an error it
    holds whatever had been put there before the error. *)
Inductive decoded :=
| Decoded (m : gmap string Unit)
| Broken (m : gmap string Unit).

(** [*log.Logger]; [None] is the nil pointer. *)
Record Logger := mkLogger { log_prefix : string }.

(** ** The environment *)

(** A path names a regular file with its contents and the access this
    process has to it, or something the process may not even stat.  A path
    that names nothing may still be one where no file can be made, because
    its directory is missing or read-only: [uncreatable] gives the error
    the attempt meets there. *)
Record file := mkFile { data : list byte; readable : bool; writable : bool }.

Inductive node :=
| Regular (f : file)
| Denied.

Record World := mkWorld {
  fs : gmap string node;
  logged : list string;
  writes : list (string * list byte);
  slept : list Duration;
  printed : list Unit;
  uncreatable : gmap string error
}.

Definition set_fs (f : gmap string node) (w : World) : World :=
  mkWorld f (logged w) (writes w) (slept w) (printed w) (uncreatable w).
Definition add_log (msg : string) (w : World) : World :=
  mkWorld (fs w) (logged w ++ [msg]) (writes w) (slept w) (printed w)
          (uncreatable w).
Definition add_write (p : string) (bs : list byte) (w : World) : World :=
  mkWorld (fs w) (logged w) (writes w ++ [(p, bs)]) (slept w) (printed w)
          (uncreatable w).
(** [time.Sleep] *)
Definition Sleep (d : Duration) (w : World) : World :=
  mkWorld (fs w) (logged w) (writes w) (slept w ++ [d]) (printed w)
          (uncreatable w).
Definition add_printed (us : list Unit) (w : World) : World :=
  mkWorld (fs w) (logged w) (writes w) (slept w) (printed w ++ us)
          (uncreatable w).

Definition empty_world : World := mkWorld ∅ [] [] [] [] ∅.

(** [os.Lstat] followed by [Size()]. *)
Definition Lstat (w : World) (path : string) : nat + error :=
  match fs w !! path with
  | None => inr (ErrNotExist path)
  | Some Denied => inr (ErrPermission path)
  | Some (Regular f) => inl (length (data f))
  end.

(** [os.OpenFile(path, os.O_RDONLY, 0644)]: the bytes a reader will see. *)
Definition OpenFile_RDONLY (w : World) (path : string) : list byte + error :=
  match fs w !! path with
  | None => inr (ErrNotExist path)
  | Some Denied => inr (ErrPermission path)
  | Some (Regular f) =>
      if readable f then inl (data f) else inr (ErrPermission path)
  end.

(** [os.OpenFile(path, os.O_CREATE|os.O_WRONLY, 0644)]: a missing file is
    created empty with mode 0644, unless none can be made at that path; an
    existing one is opened as it is, at offset 0, with its contents kept
    (no [O_TRUNC] among the flags). *)
Definition OpenFile_CREATE_WRONLY (w : World) (path : string)
  : (file * World) + error :=
  match fs w !! path with
  | None =>
      match uncreatable w !! path with
      | Some err => inr err
      | None =>
          let f := mkFile [] true true in
          inl (f, set_fs (<[path := Regular f]> (fs w)) w)
      end
  | Some Denied => inr (ErrPermission path)
  | Some (Regular f) =>
      if writable f then inl (f, w) else inr (ErrPermission path)
  end.

(** Writing [bs] from offset 0 replaces the first [length bs] bytes and
    leaves whatever lay beyond them. *)
Definition overwrite (bs old : list byte) : list byte :=
  bs ++ drop (length bs) old.

Definition write_file (path : string) (f : file) (bs : list byte) (w : World)
  : World :=
  add_write path bs
    (set_fs (<[path := Regular (mkFile (overwrite bs (data f))
                                       (readable f) (writable f))]> (fs w)) w).

(** ** The connection interface

    [type conn interface { ListUnits() ([]dbus.UnitStatus, error); Close() }] *)
Class Conn (C : Type) := {
  ListUnits : C → (list UnitStatus * option error) * C;
  Close : C → C
}.

(** A connection that answers every call with the same listing. *)
Record Steady := mkSteady { steady_units : list UnitStatus }.

#[export] Instance Steady_Conn : Conn Steady := {
  ListUnits c := ((steady_units c, None), c);
  Close c := c
}.

(** A scripted connection, as a test double would be: the answers are
    handed out in order; once they are used up, or after [Close], every
    call fails. *)
Record Script := mkScript { answers : list (list UnitStatus * option error) }.

#[export] Instance Script_Conn : Conn Script := {
  ListUnits c :=
    match answers c with
    | [] => (([], Some (ErrConn "connection closed")), c)
    | a :: rest => (a, mkScript rest)
    end;
  Close c := mkScript []
}.

(** ** The watcher *)

Section Watcher.
Context {C : Type} `{Conn C}.

(** What [gob.NewEncoder(gzip.NewWriter(f)).Encode(sd.state)] sends to the
    file, and what [gob.NewDecoder(gzip.NewReader(f)).Decode(&sd.state)]
    makes of a file's bytes, given the map it decodes into ([Broken] when
    either reader reports an error).  Both belong to Go's standard
    library; the development is parametric in them. *)
Variable encode : gmap string Unit → list byte.
Variable decode : list byte → gmap string Unit → decoded.

Record Systemd := mkSystemd {
  conn : C;
  state : gmap string Unit;
  statePath : string;
  logger : option Logger;
  interval : Duration;
  bootstrap : bool
}.

Definition set_conn (c : C) (sd : Systemd) : Systemd :=
  mkSystemd c (state sd) (statePath sd) (logger sd) (interval sd)
            (bootstrap sd).
Definition set_state (m : gmap string Unit) (sd : Systemd) : Systemd :=
  mkSystemd (conn sd) m (statePath sd) (logger sd) (interval sd)
            (bootstrap sd).
Definition set_bootstrap (b : bool) (sd : Systemd) : Systemd :=
  mkSystemd (conn sd) (state sd) (statePath sd) (logger sd) (interval sd) b.

(** [type Option func(sd *Systemd)] *)
Definition Option := Systemd → Systemd.

Definition WithStateFile (path : string) : Option := fun sd =>
  mkSystemd (conn sd) (state sd) path (logger sd) (interval sd)
            (bootstrap sd).
Definition WithLogger (l : option Logger) : Option := fun sd =>
  mkSystemd (conn sd) (state sd) (statePath sd) l (interval sd)
            (bootstrap sd).
Definition WithInterval (d : Duration) : Option := fun sd =>
  mkSystemd (conn sd) (state sd) (statePath sd) (logger sd) d
            (bootstrap sd).

(** [logf]: a nil logger swallows the message. *)
Definition logf (sd : Systemd) (msg : string) (w : World) : World :=
  match logger sd with
  | Some _ => add_log msg w
  | None => w
  end.

(** The two messages of the poll loop, after [Sprintf]. *)
Definition status_line (s : UnitStatus) : string :=
  Name s +:+ " active=" +:+ ActiveState s +:+ " load=" +:+ LoadState s
         +:+ " sub=" +:+ SubState s.
Definition deleted_line (u : Unit) : string :=
  Name (Unit_UnitStatus u) +:+ " deleted".

(** [load]: the state file is read into [sd.state].  When decoding fails
    the map keeps what the decoder left in it; [New] then drops the
    watcher. *)
Definition load (sd : Systemd) (w : World) : option error * Systemd * World :=
  match Lstat w (statePath sd) with
  | inr err =>
      if IsNotExist err then
        let sd' := set_bootstrap true sd in
        (None, sd',
         logf sd' "state file doesn't exist, enable bootstrap mode" w)
      else (Some err, sd, w)
  | inl size =>
      if Nat.eqb size 0 then (None, sd, w)
      else
        match OpenFile_RDONLY w (statePath sd) with
        | inr err => (Some err, sd, w)
        | inl bytes =>
            match decode bytes (state sd) with
            | Broken m => (Some ErrCorrupt, set_state m sd, w)
            | Decoded m => (None, set_state m sd, w)
            end
        end
  end.

(** [store]: the map is encoded over the state file from offset 0.  The
    deferred [w.Close()] and [f.Close()] run before [store] returns;
    their errors are dropped. *)
Definition store (sd : Systemd) (w : World) : option error * World :=
  match OpenFile_CREATE_WRONLY w (statePath sd) with
  | inr err => (Some err, w)
  | inl (f, w') => (None, write_file (statePath sd) f (encode (state sd)) w')
  end.

(** [New], given what [dbus.New()] returned. *)
Definition New (dial : C + error) (opts : list Option) (w : World)
  : (Systemd + error) * World :=
  match dial with
  | inr err => (inr err, w)
  | inl c =>
      let sd := mkSystemd c ∅ DefaultStateFile
                          (Some (mkLogger "[systemd] ")) DefaultInterval
                          false in
      let sd := foldl (fun sd opt => opt sd) sd opts in
      match load sd w with
      | (Some err, _, w') => (inr err, w')
      | (None, sd', w') => (inl sd', w')
      end
  end.

(** The body of the first inner loop of [Next], for one listed unit [s]:
    an entry that is present and equal is skipped; otherwise the entry is
    (re)placed, [flush] is raised, and the unit is logged unless this is
    the first cycle of a bootstrap run ([quiet]). *)
Definition observe (quiet : bool) (acc : Systemd * World * bool)
           (s : UnitStatus) : Systemd * World * bool :=
  let '(sd, w, flush) := acc in
  let skip :=
    match state sd !! Path s with
    | Some unit => isEqual unit s
    | None => false
    end in
  if skip then acc
  else
    let sd' := set_state (<[Path s := mkUnit s]> (state sd)) sd in
    (sd', if quiet then w else logf sd' (status_line s) w, true).

(** The inner search of the loop labelled [Loop]: is [path] listed? *)
Fixpoint listed (path : string) (units : list UnitStatus) : bool :=
  match units with
  | [] => false
  | s :: rest => if String.eqb (Path s) path then true else listed path rest
  end.

(** The body of the loop labelled [Loop], for one entry of the map: an
    entry whose path is not listed is deleted and logged. *)
Definition prune (units : list UnitStatus) (acc : Systemd * World * bool)
           (entry : string * Unit) : Systemd * World * bool :=
  let '(sd, w, flush) := acc in
  let '(path, u) := entry in
  if listed path units then acc
  else
    let sd' := set_state (delete path (state sd)) sd in
    (sd', logf sd' (deleted_line u) w, true).

(** Both inner loops of one cycle.  Go ranges over a map in an unspecified
    order; the model visits the entries in the order of [map_to_list].
    Only the entry being visited is ever deleted, so every entry present
    when the second loop starts is visited once. *)
Definition diff (quiet : bool) (units : list UnitStatus) (sd : Systemd)
           (w : World) : Systemd * World * bool :=
  let acc := foldl (observe quiet) (sd, w, false) units in
  foldl (prune units) acc (map_to_list (state acc.1.1)).

(** How one pass through the body of [for { ... }] ends. *)
Inductive pass := Failed (e : error) | Slept.

(** The end of a pass: [if flush { store }] and the sleep. *)
Definition finish (r : Systemd * World * bool) : pass * Systemd * World :=
  let '(sd, w, flush) := r in
  if flush then
    match store sd w with
    | (Some e, w') => (Failed e, sd, w')
    | (None, w') => (Slept, sd, Sleep (interval sd) w')
    end
  else (Slept, sd, Sleep (interval sd) w).

Definition cycle (first : bool) (sd : Systemd) (w : World)
  : pass * Systemd * World :=
  let '((units, err), c) := ListUnits (conn sd) in
  let sd := set_conn c sd in
  match err with
  | Some e => (Failed e, sd, w)
  | None => finish (diff (bootstrap sd && first) units sd w)
  end.

(** What a call of [Next] comes to: it returns, or it is still polling
    when the fuel is spent. *)
Inductive outcome :=
| Return (changes : list Unit) (err : option error) (sd : Systemd) (w : World)
| Polling (sd : Systemd) (w : World).

(** The loop of [Next]; [first] is its local variable.  Both [return]
    statements are [return nil, err]. *)
Fixpoint Next_loop (fuel : nat) (first : bool) (sd : Systemd) (w : World)
  : outcome :=
  match fuel with
  | 0 => Polling sd w
  | S fuel' =>
      match cycle first sd w with
      | (Failed e, sd', w') => Return [] (Some e) sd' w'
      | (Slept, sd', w') => Next_loop fuel' false sd' w'
      end
  end.

Definition Next (fuel : nat) (sd : Systemd) (w : World) : outcome :=
  Next_loop fuel true sd w.

(** The loop at the end of [start] in [main.go]: every batch [Next]
    returns without an error is printed, an error ends the loop.  [calls]
    bounds the calls of [Next], [fuel] the cycles of each; [None] means
    the bound was reached. *)
Fixpoint start_loop (calls fuel : nat) (sd : Systemd) (w : World)
  : option error * World :=
  match calls with
  | 0 => (None, w)
  | S calls' =>
      match Next fuel sd w with
      | Polling _ w' => (None, w')
      | Return _ (Some e) _ w' => (Some e, w')
      | Return changes None sd' w' =>
          start_loop calls' fuel sd' (add_printed changes w')
      end
  end.

(** [start] in [main.go], given what [slack.New] and [dbus.New] returned
    and the values of the flags.  The deferred [sd.Close()] only releases
    the connection, which [start] does not hand back. *)
Definition start (slack : option error) (dial : C + error)
           (stateFile : string) (d : Duration) (calls fuel : nat) (w : World)
  : option error * World :=
  match slack with
  | Some err => (Some err, w)
  | None =>
      match New dial [WithStateFile stateFile; WithInterval d] w with
      | (inr err, w') => (Some err, w')
      | (inl sd, w') => start_loop calls fuel sd w'
      end
  end.

End Watcher.

(** The map a listing amounts to: each path bound to the last unit listed
    under it. *)
Definition snapshot_of (units : list UnitStatus) : gmap string Unit :=
  foldl (fun m s => <[Path s := mkUnit s]> m) ∅ units.

Arguments Systemd C : clear implicits.
Arguments outcome C : clear implicits.

(** ** A concrete codec

    The development is parametric in what gzip and gob do to the map.  To
    run the model on concrete worlds, this is a small self-delimiting codec
    with the same interface: two magic bytes, then the number of entries,
    then for each entry its key and its ten fields.  Numbers are written in
    unary, strings with their length first.  As gob does, decoding adds the
    entries to the map it is given, and leaves there what it had added
    when it fails. *)
Module Codec.

Definition put_nat (n : nat) : list byte := replicate n x01 ++ [x00].

Fixpoint get_nat (bs : list byte) : option (nat * list byte) :=
  match bs with
  | x00 :: rest => Some (0, rest)
  | x01 :: rest =>
      match get_nat rest with
      | Some (n, rest') => Some (S n, rest')
      | None => None
      end
  | _ => None
  end.

Definition put_string (s : string) : list byte :=
  put_nat (String.length s) ++ String.list_byte_of_string s.

Definition get_string (bs : list byte) : option (string * list byte) :=
  match get_nat bs with
  | Some (n, rest) =>
      if decide (n ≤ length rest)%nat
      then Some (String.string_of_list_byte (take n rest), drop n rest)
      else None
  | None => None
  end.

Definition put_unit (u : Unit) : list byte :=
  let s := Unit_UnitStatus u in
  put_string (Name s) ++ put_string (Description s)
    ++ put_string (LoadState s) ++ put_string (ActiveState s)
    ++ put_string (SubState s) ++ put_string (Followed s)
    ++ put_string (Path s) ++ put_nat (N.to_nat (JobId s))
    ++ put_string (JobType s) ++ put_string (JobPath s).

(** A reader: bytes in, a value and the bytes left over out. *)
Definition reader (A : Type) := list byte → option (A * list byte).

Definition and_then {A B} (r : reader A) (k : A → reader B) : reader B :=
  fun bs =>
    match r bs with
    | Some (a, rest) => k a rest
    | None => None
    end.

Definition get_unit : reader Unit :=
  and_then get_string (fun name =>
  and_then get_string (fun description =>
  and_then get_string (fun loadState =>
  and_then get_string (fun activeState =>
  and_then get_string (fun subState =>
  and_then get_string (fun followed =>
  and_then get_string (fun path =>
  and_then get_nat (fun jobId =>
  and_then get_string (fun jobType =>
  and_then get_string (fun jobPath => fun rest =>
    Some (mkUnit (mkUnitStatus name description loadState activeState
                               subState followed path (N.of_nat jobId)
                               jobType jobPath), rest))))))))))).

Definition put_entry (e : string * Unit) : list byte :=
  put_string e.1 ++ put_unit e.2.

Fixpoint get_entries (n : nat) (bs : list byte) (m : gmap string Unit)
  : decoded :=
  match n with
  | 0 => Decoded m
  | S n' =>
      match and_then get_string (fun k => and_then get_unit (fun u rest =>
               Some (k, u, rest))) bs with
      | Some (k, u, rest) => get_entries n' rest (<[k := u]> m)
      | None => Broken m
      end
  end.

Definition encode (m : gmap string Unit) : list byte :=
  [x1f; x8b] ++ put_nat (size m) ++ concat (put_entry <$> map_to_list m).

Definition decode (bs : list byte) (into : gmap string Unit) : decoded :=
  match bs with
  | x1f :: x8b :: rest =>
      match get_nat rest with
      | Some (n, rest') => get_entries n rest' into
      | None => Broken into
      end
  | _ => Broken into
  end.

End Codec.

(** ** Concrete units and worlds for the examples *)

Definition unit_of (name path active load sub : string) : UnitStatus :=
  mkUnitStatus name "" load active sub "" path 0 "" "".

Definition ssh_running : UnitStatus :=
  unit_of "ssh.service" "/unit/ssh" "active" "loaded" "running".
Definition ssh_failed : UnitStatus :=
  unit_of "ssh.service" "/unit/ssh" "failed" "loaded" "failed".
(** ssh as [ssh_running], with a description. *)
Definition ssh_described : UnitStatus :=
  mkUnitStatus "ssh.service" "OpenBSD Secure Shell server" "loaded" "active"
               "running" "" "/unit/ssh" 0 "" "".
Definition cron_running : UnitStatus :=
  unit_of "cron.service" "/unit/cron" "active" "loaded" "running".

Definition scripted (answers : list (list UnitStatus * option error))
  : Script + error := inl (mkScript answers).

(** A watcher over a scripted connection, otherwise as [New] sets it up. *)
Definition watcher (answers : list (list UnitStatus * option error))
           (m : gmap string Unit) (boot : bool) : Systemd Script :=
  mkSystemd (mkScript answers) m DefaultStateFile
            (Some (mkLogger "[systemd] ")) DefaultInterval boot.

(** Two maps and their files under the concrete codec. *)
Definition ssh_only : gmap string Unit :=
  {[ "/unit/ssh" := mkUnit ssh_running ]}.
Definition ssh_and_cron : gmap string Unit :=
  <[ "/unit/cron" := mkUnit cron_running ]> ssh_only.
Definition file_of (m : gmap string Unit) : file :=
  mkFile (Codec.encode m) true true.


(** A state file cut off in the middle of its second entry. *)
Definition cut_file : file :=
  mkFile (take 150 (Codec.encode ssh_and_cron)) true true.

Definition outage : error := ErrConn "dbus: connection timed out".

(** A watcher over a connection that always gives the same listing. *)
Definition steady_watcher (units : list UnitStatus) (m : gmap string Unit)
           (boot : bool) : Systemd Steady :=
  mkSystemd (mkSteady units) m DefaultStateFile
            (Some (mkLogger "[systemd] ")) DefaultInterval boot.

(** A world whose only file is the default state file. *)
Definition world_with (f : file) : World :=
  set_fs {[ DefaultStateFile := Regular f ]} empty_world.

(** ** Vocabulary for the statements *)

(** Several lines appended to the log at once. *)
Definition add_logs (msgs : list string) (w : World) : World :=
  mkWorld (fs w) (logged w ++ msgs) (writes w) (slept w) (printed w)
          (uncreatable w).

(** The listing laid over a map, entry by entry. *)
Definition overlay (m : gmap string Unit) (units : list UnitStatus)
  : gmap string Unit :=
  foldl (fun m s => <[Path s := mkUnit s]> m) m units.

(** Does the listed unit [s] differ from what [m] holds under its path
    (nothing, or another record)? *)
Definition differs (m : gmap string Unit) (s : UnitStatus) : bool :=
  bool_decide (m !! Path s ≠ Some (mkUnit s)).

(** The listed units that are not skipped by the first inner loop, each
    judged against the map as the units before it left it. *)
Fixpoint touched (m : gmap string Unit) (units : list UnitStatus)
  : list UnitStatus :=
  match units with
  | [] => []
  | s :: rest =>
      if differs m s then s :: touched (<[Path s := mkUnit s]> m) rest
      else touched m rest
  end.

(** The entries of [entries] whose path is not listed. *)
Definition unlisted (units : list UnitStatus) (entries : list (string * Unit))
  : list (string * Unit) :=
  filter (fun e => listed e.1 units = false) entries.

(** The map after the loop labelled [Loop] has gone through [entries]. *)
Definition swept (units : list UnitStatus) (m : gmap string Unit)
           (entries : list (string * Unit)) : gmap string Unit :=
  foldl (fun m e => if listed e.1 units then m else delete e.1 m) m entries.

Section Vocabulary.
Context {C : Type} `{Conn C}.
Variable encode : gmap string Unit → list byte.

(** The lines that reach the log of [sd]. *)
Definition heard (sd : Systemd C) (msgs : list string) : list string :=
  match logger sd with
  | Some _ => msgs
  | None => []
  end.

(** The lines a pass adds to the log, and whether it raises [flush]. *)
Definition pass_lines (quiet : bool) (units : list UnitStatus)
           (sd : Systemd C)
  : list string :=
  (if quiet then []
   else heard sd (status_line <$> touched (state sd) units))
  ++ heard sd (deleted_line <$>
       (unlisted units (map_to_list (overlay (state sd) units))).*2).

Definition pass_flush (units : list UnitStatus) (sd : Systemd C) : bool :=
  negb (bool_decide (touched (state sd) units = []))
  || negb (bool_decide
             (unlisted units (map_to_list (overlay (state sd) units)) = [])).

(** The watcher [New] hands to [load]: the defaults, then the options. *)
Definition configured (c : C) (opts : list (Option (C:=C))) : Systemd C :=
  foldl (fun sd opt => opt sd)
        (mkSystemd c ∅ DefaultStateFile (Some (mkLogger "[systemd] "))
                   DefaultInterval false)
        opts.

(** [k] passes of the loop of [Next] that all end in the sleep: the value
    of [first], the watcher and the world before pass [k + 1]. *)
Fixpoint passes (k : nat) (first : bool) (sd : Systemd C) (w : World)
  : option (bool * Systemd C * World) :=
  match k with
  | 0 => Some (first, sd, w)
  | S k' =>
      match cycle encode first sd w with
      | (Slept, sd', w') => passes k' false sd' w'
      | (Failed _, _, _) => None
      end
  end.

(** The watcher and the world a call of [Next] has reached. *)
Definition outcome_watcher (o : outcome C) : Systemd C :=
  match o with
  | Return _ _ sd _ => sd
  | Polling sd _ => sd
  end.

Definition outcome_world (o : outcome C) : World :=
  match o with
  | Return _ _ _ w => w
  | Polling _ w => w
  end.

(** The options the package offers. *)
Inductive package_option : Option (C:=C) → Prop :=
| option_state_file path : package_option (WithStateFile path)
| option_logger l : package_option (WithLogger l)
| option_interval d : package_option (WithInterval d).

End Vocabulary.

(** ** Lemmas on the building blocks *)

Lemma add_logs_nil w : add_logs [] w = w.
Proof. destruct w. unfold add_logs. simpl. by rewrite app_nil_r. Qed.

Lemma add_logs_add_logs a b w : add_logs b (add_logs a w) = add_logs (a ++ b) w.
Proof. unfold add_logs. simpl. by rewrite app_assoc. Qed.

Lemma add_log_add_logs msg w : add_log msg w = add_logs [msg] w.
Proof. reflexivity. Qed.

Lemma listed_spec path units :
  listed path units = true ↔ path ∈ Path <$> units.
Proof.
  induction units as [|s rest IH]; simpl.
  - split; [done | by intros ?%elem_of_nil].
  - rewrite elem_of_cons. destruct (String.eqb_spec (Path s) path) as [->|Hne].
    + split; [by left | done].
    + rewrite IH. split; [by right | by intros [?|?]].
Qed.

Lemma listed_false path units :
  listed path units = false ↔ path ∉ Path <$> units.
Proof.
  rewrite <- listed_spec. destruct (listed path units); naive_solver.
Qed.

Lemma differs_false m s : differs m s = false ↔ m !! Path s = Some (mkUnit s).
Proof.
  unfold differs. rewrite bool_decide_eq_false. split.
  - intros Hn. by destruct (decide (m !! Path s = Some (mkUnit s))).
  - intros Heq Hn. done.
Qed.

(** The test at the head of the first inner loop is [differs], negated. *)
Lemma skip_differs (m : gmap string Unit) s :
  match m !! Path s with
  | Some unit => isEqual unit s
  | None => false
  end = negb (differs m s).
Proof.
  unfold differs, isEqual. destruct (m !! Path s) as [[u]|] eqn:E; simpl.
  - by repeat case_bool_decide; simplify_eq.
  - reflexivity.
Qed.

Arguments overlay : simpl never.

Lemma overlay_cons m s rest :
  overlay m (s :: rest) = overlay (<[Path s := mkUnit s]> m) rest.
Proof. reflexivity. Qed.

Lemma overlay_unlisted m units k :
  listed k units = false → overlay m units !! k = m !! k.
Proof.
  revert m. induction units as [|s rest IH]; intros m Hl; [done|].
  simpl in Hl. destruct (String.eqb_spec (Path s) k) as [Heq|Hne]; [done|].
  rewrite overlay_cons, IH by done.
  by rewrite lookup_insert_ne.
Qed.

Lemma overlay_listed m m' units k :
  listed k units = true → overlay m units !! k = overlay m' units !! k.
Proof.
  revert m m'. induction units as [|s rest IH]; intros m m' Hl; [done|].
  rewrite !overlay_cons. simpl in Hl.
  destruct (String.eqb_spec (Path s) k) as [Heq|Hne].
  - subst k. destruct (listed (Path s) rest) eqn:E.
    + by apply IH.
    + rewrite !overlay_unlisted by done. by rewrite !lookup_insert_eq.
  - by apply IH.
Qed.

Lemma overlay_same m units :
  (∀ s, s ∈ units → m !! Path s = Some (mkUnit s)) → overlay m units = m.
Proof.
  induction units as [|s rest IH]; intros Hall; [done|].
  rewrite overlay_cons, insert_id.
  - apply IH. intros s' Hs'. apply Hall. by right.
  - apply Hall. by left.
Qed.

Lemma overlay_last m units s :
  s ∈ units → NoDup (Path <$> units) →
  overlay m units !! Path s = Some (mkUnit s).
Proof.
  revert m. induction units as [|s' rest IH]; intros m Hin Hnd.
  - by apply elem_of_nil in Hin.
  - rewrite fmap_cons in Hnd. apply NoDup_cons in Hnd as [Hnot Hnd].
    rewrite overlay_cons. apply elem_of_cons in Hin as [->|Hin].
    + rewrite overlay_unlisted by by apply listed_false.
      by rewrite lookup_insert_eq.
    + by apply IH.
Qed.

Lemma filter_agree {A} (P Q : A → Prop) `{!∀ x, Decision (P x)}
      `{!∀ x, Decision (Q x)} (l : list A) :
  (∀ x, x ∈ l → P x ↔ Q x) → filter P l = filter Q l.
Proof.
  induction l as [|a l IH]; intros Hall; [done|].
  assert (filter P l = filter Q l) as Hl.
  { apply IH. intros x Hx. apply Hall. by right. }
  destruct (decide (P a)) as [HP|HP].
  - rewrite !filter_cons_True; [by rewrite Hl | by apply Hall; [left|] | done].
  - rewrite !filter_cons_False; [done | | done].
    intros HQ. apply HP. apply Hall; [by left | done].
Qed.

Lemma touched_nodup m units :
  NoDup (Path <$> units) →
  touched m units = filter (fun s => differs m s = true) units.
Proof.
  revert m. induction units as [|s rest IH]; intros m Hnd; [done|].
  rewrite fmap_cons in Hnd. apply NoDup_cons in Hnd as [Hnot Hnd].
  assert (Hrest : touched (<[Path s:=mkUnit s]> m) rest
                  = filter (fun s0 => differs m s0 = true) rest).
  { rewrite IH by done. apply filter_agree. intros s0 Hs0.
    unfold differs. rewrite lookup_insert_ne; [done|].
    intros Heq. apply Hnot. rewrite Heq. by apply list_elem_of_fmap_2. }
  simpl. destruct (differs m s) eqn:E.
  - rewrite filter_cons_True by done. by rewrite Hrest.
  - rewrite filter_cons_False by (by rewrite E).
    rewrite <- Hrest. apply differs_false in E.
    by rewrite insert_id.
Qed.

Lemma touched_none m units :
  (∀ s, s ∈ units → m !! Path s = Some (mkUnit s)) → touched m units = [].
Proof.
  induction units as [|s rest IH]; intros Hall; [done|].
  simpl. rewrite (proj2 (differs_false m s)) by (apply Hall; by left).
  apply IH. intros s' Hs'. apply Hall. by right.
Qed.

Section Blocks.
Context {C : Type} `{Conn C}.
Variable encode : gmap string Unit → list byte.
Variable decode : list byte → gmap string Unit → decoded.
Implicit Types (sd : Systemd C) (w : World) (units : list UnitStatus).

Lemma set_state_same sd : set_state (state sd) sd = sd.
Proof. by destruct sd. Qed.

Lemma set_state_twice m m' sd :
  set_state m' (set_state m sd) = set_state m' sd.
Proof. reflexivity. Qed.

Lemma logf_heard sd msg w : logf sd msg w = add_logs (heard sd [msg]) w.
Proof.
  unfold logf, heard. destruct (logger sd); [done|].
  by rewrite add_logs_nil.
Qed.

Lemma heard_app sd a b : heard sd (a ++ b) = heard sd a ++ heard sd b.
Proof. unfold heard. by destruct (logger sd). Qed.

Lemma heard_set_state m sd msgs : heard (set_state m sd) msgs = heard sd msgs.
Proof. reflexivity. Qed.

(** The first inner loop as a whole. *)
Lemma observe_all quiet units sd w flush :
  foldl (observe quiet) (sd, w, flush) units
  = (set_state (overlay (state sd) units) sd,
     add_logs (if quiet then []
               else heard sd (status_line <$> touched (state sd) units)) w,
     flush || negb (bool_decide (touched (state sd) units = []))).
Proof.
  revert sd w flush. induction units as [|s rest IH]; intros sd w flush.
  - change (overlay (state sd) []) with (state sd). simpl.
    rewrite set_state_same, orb_false_r.
    destruct quiet; by rewrite ?add_logs_nil; unfold heard;
      destruct (logger sd); rewrite ?add_logs_nil.
  - rewrite overlay_cons. simpl. rewrite skip_differs.
    destruct (differs (state sd) s) eqn:E; simpl.
    + rewrite IH. simpl. rewrite orb_true_r, set_state_twice.
      destruct quiet; [done|].
      rewrite logf_heard, add_logs_add_logs, !heard_set_state.
      by rewrite <- heard_app.
    + rewrite IH. apply differs_false in E. by rewrite insert_id.
Qed.

(** The loop labelled [Loop] as a whole, over any list of entries. *)
Lemma prune_all units entries sd w flush :
  foldl (prune units) (sd, w, flush) entries
  = (set_state (swept units (state sd) entries) sd,
     add_logs (heard sd (deleted_line <$> (unlisted units entries).*2)) w,
     flush || negb (bool_decide (unlisted units entries = []))).
Proof.
  revert sd w flush.
  induction entries as [|[k u] rest IH]; intros sd w flush.
  - simpl. rewrite set_state_same, orb_false_r.
    unfold heard. destruct (logger sd); by rewrite add_logs_nil.
  - unfold unlisted in *. simpl. destruct (listed k units) eqn:E.
    + rewrite filter_cons_False by (simpl; by rewrite E).
      by rewrite IH.
    + rewrite filter_cons_True by done.
      rewrite IH. simpl. rewrite orb_true_r, set_state_twice.
      rewrite logf_heard, add_logs_add_logs, !heard_set_state.
      by rewrite <- heard_app.
Qed.

Lemma swept_lookup units m entries k :
  swept units m entries !! k
  = if listed k units then m !! k
    else if bool_decide (k ∈ entries.*1) then None else m !! k.
Proof.
  revert m. induction entries as [|[k' u] rest IH]; intros m.
  - simpl. by destruct (listed k units).
  - change (swept units m ((k', u) :: rest))
      with (swept units (if listed k' units then m else delete k' m) rest).
    rewrite IH, fmap_cons. clear IH. cbn [fst].
    destruct (listed k units) eqn:Ek.
    + destruct (listed k' units) eqn:Ek'; [done|].
      rewrite lookup_delete_ne; [done|]. intros ->. congruence.
    + destruct (decide (k' = k)) as [->|Hne].
      * rewrite Ek. rewrite lookup_delete_eq.
        rewrite (bool_decide_eq_true_2 (k ∈ k :: rest.*1)) by by left.
        by case_bool_decide.
      * assert (bool_decide (k ∈ k' :: rest.*1) = bool_decide (k ∈ rest.*1))
          as ->.
        { apply bool_decide_ext. rewrite elem_of_cons.
          split; [by intros [?|?] | by right]. }
        case_bool_decide; [done|].
        destruct (listed k' units); [done|]. by rewrite lookup_delete_ne.
Qed.

Lemma swept_own units (m : gmap string Unit) k :
  swept units m (map_to_list m) !! k
  = if listed k units then m !! k else None.
Proof.
  rewrite swept_lookup. destruct (listed k units); [done|].
  case_bool_decide as Hin; [done|].
  destruct (m !! k) as [u|] eqn:E; [|done].
  exfalso. apply Hin. apply list_elem_of_fmap. exists (k, u).
  split; [done|]. by apply elem_of_map_to_list.
Qed.

(** Whatever the map held before, a pass leaves the map of the listing. *)
Lemma swept_overlay units (m : gmap string Unit) :
  swept units (overlay m units) (map_to_list (overlay m units))
  = snapshot_of units.
Proof.
  apply map_eq. intros k. rewrite swept_own.
  change (snapshot_of units) with (overlay ∅ units).
  destruct (listed k units) eqn:E.
  - by apply overlay_listed.
  - by rewrite overlay_unlisted, lookup_empty.
Qed.

Lemma diff_eq quiet units sd w :
  diff quiet units sd w
  = (set_state (snapshot_of units) sd,
     add_logs (pass_lines quiet units sd) w,
     pass_flush units sd).
Proof.
  unfold diff, pass_lines, pass_flush. rewrite observe_all. simpl.
  rewrite prune_all. simpl.
  by rewrite swept_overlay, set_state_twice, add_logs_add_logs.
Qed.

End Blocks.

Section Passes.
Context {C : Type} `{Conn C}.
Variable encode : gmap string Unit → list byte.
Implicit Types (sd : Systemd C) (w : World) (units : list UnitStatus).

Lemma cycle_listing_failed first sd w units e c :
  ListUnits (conn sd) = (units, Some e, c) →
  cycle encode first sd w = (Failed e, set_conn c sd, w).
Proof. intros HL. unfold cycle. by rewrite HL. Qed.

Lemma cycle_listing_ok first sd w units c :
  ListUnits (conn sd) = (units, None, c) →
  cycle encode first sd w
  = finish encode (diff (bootstrap sd && first) units (set_conn c sd) w).
Proof. intros HL. unfold cycle. by rewrite HL. Qed.

Lemma passes_Next_loop k n first sd w first' sd' w' :
  passes encode k first sd w = Some (first', sd', w') →
  Next_loop encode (k + n) first sd w = Next_loop encode n first' sd' w'.
Proof.
  revert first sd w. induction k as [|k IH]; intros first sd w Hp.
  - simpl in Hp. by simplify_eq.
  - simpl in *. destruct (cycle encode first sd w) as [[[e|] sd1] w1];
      [done|]. by apply IH.
Qed.

Lemma Next_loop_returns_errors fuel first sd w :
  match Next_loop encode fuel first sd w with
  | Return changes err _ _ => changes = [] ∧ is_Some err
  | Polling _ _ => True
  end.
Proof.
  revert first sd w. induction fuel as [|fuel IH]; intros first sd w.
  - done.
  - simpl. destruct (cycle encode first sd w) as [[[e|] sd1] w1].
    + split; [done | by eexists].
    + apply IH.
Qed.

Lemma start_loop_error calls fuel sd w e sd' w' changes :
  Next encode fuel sd w = Return changes (Some e) sd' w' →
  start_loop encode (S calls) fuel sd w = (Some e, w').
Proof. intros HN. simpl. by rewrite HN. Qed.

(** A listing whose map the watcher already holds: nothing to log, nothing
    to flush. *)
Lemma unlisted_none units entries :
  (∀ e, e ∈ entries → listed e.1 units = true) → unlisted units entries = [].
Proof.
  intros Hall. unfold unlisted.
  destruct (filter _ entries) as [|e l] eqn:E; [done|].
  assert (e ∈ filter (fun e => listed e.1 units = false) entries) as Hin
    by (rewrite E; by left).
  apply list_elem_of_filter in Hin as [Hf Hin]. apply Hall in Hin. congruence.
Qed.

Lemma settled_pass quiet units sd :
  NoDup (Path <$> units) → state sd = snapshot_of units →
  pass_lines quiet units sd = [] ∧ pass_flush units sd = false.
Proof.
  intros Hnd Hst.
  assert (Hall : ∀ s, s ∈ units → state sd !! Path s = Some (mkUnit s)).
  { intros s Hs. rewrite Hst. by apply overlay_last. }
  unfold pass_lines, pass_flush.
  rewrite (touched_none _ _ Hall), (overlay_same _ _ Hall).
  rewrite unlisted_none.
  - simpl. split; [|done]. unfold heard.
    by destruct quiet, (logger sd).
  - intros [k u] Hin. apply elem_of_map_to_list in Hin. simpl.
    destruct (listed k units) eqn:E; [done|].
    rewrite Hst in Hin. unfold snapshot_of in Hin.
    change (overlay ∅ units !! k = Some u) in Hin.
    by rewrite overlay_unlisted, lookup_empty in Hin.
Qed.

End Passes.

(** ** Failures of the listing call and of the flush *)

Section Failures.
Context {C : Type} `{Conn C}.
Variable encode : gmap string Unit → list byte.
Implicit Types (sd : Systemd C) (w : World) (units : list UnitStatus).

(** C10.  When [ListUnits] fails in a pass, [Next] returns that error and
    nothing but the connection has moved: the map is the one the pass
    started with, and the world (files, writes made by [store], log
    lines, sleeps) is the very same. *)
Theorem failed_listing_leaves_map_and_disk first sd w units e c n :
  ListUnits (conn sd) = (units, Some e, c) →
  cycle encode first sd w = (Failed e, set_conn c sd, w)
  ∧ Next_loop encode (S n) first sd w = Return [] (Some e) (set_conn c sd) w
  ∧ state (set_conn c sd) = state sd
  ∧ bootstrap (set_conn c sd) = bootstrap sd.
Proof.
  intros HL. pose proof (cycle_listing_failed encode first sd w _ _ _ HL) as Hc.
  repeat split; [done|]. simpl. by rewrite Hc.
Qed.

(** C9.  After any number [k] of passes that went through, a failing
    [ListUnits] makes [Next] return that very error from the pass it
    occurs in, after one call and with the world as that pass found it (no
    line is logged, so no unit is reported deleted); a failing [store]
    after a pass that raised [flush] makes [Next] return the error of
    [store].  Either way the loop of [start] ends with the error. *)
Theorem failures_end_the_stream :
  (∀ k n sd w first_k sd_k w_k units e c,
      passes encode k true sd w = Some (first_k, sd_k, w_k) →
      ListUnits (conn sd_k) = (units, Some e, c) →
      Next encode (k + S n) sd w = Return [] (Some e) (set_conn c sd_k) w_k
      ∧ ∀ calls, start_loop encode (S calls) (k + S n) sd w = (Some e, w_k))
  ∧ (∀ k n sd w first_k sd_k w_k units c sd' w' e w'',
      passes encode k true sd w = Some (first_k, sd_k, w_k) →
      ListUnits (conn sd_k) = (units, None, c) →
      diff (bootstrap sd_k && first_k) units (set_conn c sd_k) w_k
      = (sd', w', true) →
      store encode sd' w' = (Some e, w'') →
      Next encode (k + S n) sd w = Return [] (Some e) sd' w''
      ∧ ∀ calls, start_loop encode (S calls) (k + S n) sd w = (Some e, w'')).
Proof.
  split.
  - intros k n sd w first_k sd_k w_k units e c Hp HL.
    assert (Next encode (k + S n) sd w
            = Return [] (Some e) (set_conn c sd_k) w_k) as HN.
    { unfold Next. rewrite (passes_Next_loop encode _ _ _ _ _ _ _ _ Hp).
      simpl. by rewrite (cycle_listing_failed encode _ _ _ _ _ _ HL). }
    split; [done|]. intros calls. by eapply start_loop_error.
  - intros k n sd w first_k sd_k w_k units c sd' w' e w'' Hp HL Hd Hs.
    assert (Next encode (k + S n) sd w = Return [] (Some e) sd' w'') as HN.
    { unfold Next. rewrite (passes_Next_loop encode _ _ _ _ _ _ _ _ Hp).
      simpl. rewrite (cycle_listing_ok encode _ _ _ _ _ HL), Hd.
      simpl. by rewrite Hs. }
    split; [done|]. intros calls. by eapply start_loop_error.
Qed.

End Failures.

Lemma failed_listing_leaves_map_and_disk_witness :
  let sd := watcher [([], Some outage)] {[ "/unit/ssh" := mkUnit ssh_running ]}
                    false in
  Next_loop Codec.encode 1 false sd empty_world
  = Return [] (Some outage) (set_conn (mkScript []) sd) empty_world
  ∧ state (set_conn (mkScript []) sd) = {[ "/unit/ssh" := mkUnit ssh_running ]}.
Proof.
  intros sd.
  assert (ListUnits (conn sd) = ([], Some outage, mkScript [])) as HL
    by reflexivity.
  destruct (failed_listing_leaves_map_and_disk Codec.encode false sd
              empty_world [] outage (mkScript []) 0 HL)
    as (_ & HN & Hst & _).
  split; [exact HN | exact Hst].
Defined.

Lemma failures_end_the_stream_witness :
  (∃ sd1 w1,
      passes Codec.encode 1 true
             (watcher [([ssh_running], None); ([], Some outage)] ∅ true)
             empty_world = Some (false, sd1, w1)
      ∧ Next Codec.encode 2
             (watcher [([ssh_running], None); ([], Some outage)] ∅ true)
             empty_world
        = Return [] (Some outage) (set_conn (mkScript []) sd1) w1)
  ∧ (∃ sd' w',
      Next Codec.encode 1 (watcher [([ssh_running], None)] ∅ false)
           (world_with (mkFile [] true false))
      = Return [] (Some (ErrPermission DefaultStateFile)) sd' w').
Proof.
  split.
  - eexists _, _. split; [vm_compute; reflexivity|].
    refine (proj1 (proj1 (failures_end_the_stream Codec.encode)
                     1 0 _ _ false _ _ [] outage (mkScript []) _ _)).
    + vm_compute. reflexivity.
    + reflexivity.
  - eexists _, _.
    refine (proj1 (proj2 (failures_end_the_stream Codec.encode)
                     0 0 _ _ true _ _ [ssh_running] (mkScript []) _ _
                     (ErrPermission DefaultStateFile) _ _ _ _ _)).
    + reflexivity.
    + reflexivity.
    + vm_compute. reflexivity.
    + vm_compute. reflexivity.
Defined.

(** ** What [Next] hands to its caller *)

(** C1.  [Next] never hands a batch of transitions to its caller.  Whatever
    the connection, the codec, the watcher and the world, a call that
    returns does so with a nil batch and an error; a pass that goes through
    is followed by the next pass inside the same call.  With the state file
    absent, a map holding ssh and a connection that lists ssh and cron
    twice and then fails: after two passes the call has logged the new
    unit and is still polling; when it does return it is with the
    connection's error and no batch, and the loop of [start] has printed
    nothing. *)
Theorem Next_returns_no_batch :
  (∀ (C : Type) (H : Conn C) (encode : gmap string Unit → list byte)
     (fuel : nat) (sd : Systemd C) (w : World),
      match Next encode fuel sd w with
      | Return changes err _ _ => changes = [] ∧ is_Some err
      | Polling _ _ => True
      end)
  ∧ (let sd := watcher [([ssh_running; cron_running], None);
                        ([ssh_running; cron_running], None)]
                       {[ "/unit/ssh" := mkUnit ssh_running ]} false in
     (∃ sd' w',
         Next Codec.encode 2 sd empty_world = Polling sd' w'
         ∧ logged w' = ["cron.service active=active load=loaded sub=running"]
         ∧ printed w' = [])
     ∧ (∃ sd' w',
         Next Codec.encode 3 sd empty_world
         = Return [] (Some (ErrConn "connection closed")) sd' w')
     ∧ (∃ w',
         start_loop Codec.encode 4 3 sd empty_world
         = (Some (ErrConn "connection closed"), w')
         ∧ printed w' = [])).
Proof.
  split.
  - intros C H encode fuel sd w. apply Next_loop_returns_errors.
  - intros sd. split; [|split].
    + eexists _, _. split; [vm_compute; reflexivity|]. by split.
    + eexists _, _. vm_compute. reflexivity.
    + eexists _. split; [vm_compute; reflexivity|]. done.
Qed.

(** ** The state file *)

(** [store] takes one of four ways. *)
Ltac store_cases sd w :=
  unfold store, OpenFile_CREATE_WRONLY;
  destruct (fs w !! statePath sd) as [[?f|]|] eqn:?Hfs;
    [destruct (writable f) eqn:?Hwr
    |
    |destruct (uncreatable w !! statePath sd) as [?e|] eqn:?Hun].

Section StateFile.
Context {C : Type} `{Conn C}.
Variable encode : gmap string Unit → list byte.
Variable decode : list byte → gmap string Unit → decoded.
Implicit Types (sd : Systemd C) (w : World) (f : file).

Lemma New_load c opts w :
  New decode (inl c) opts w
  = match load decode (configured c opts) w with
    | (Some err, _, w') => (inr err : Systemd C + error, w')
    | (None, sd', w') => (inl sd', w')
    end.
Proof. reflexivity. Qed.

Lemma load_absent sd w :
  fs w !! statePath sd = None →
  load decode sd w
  = (None, set_bootstrap true sd,
     logf (set_bootstrap true sd)
          "state file doesn't exist, enable bootstrap mode" w).
Proof. intros Hf. unfold load, Lstat. by rewrite Hf. Qed.

Lemma load_empty sd w f :
  fs w !! statePath sd = Some (Regular f) → data f = [] →
  load decode sd w = (None, sd, w).
Proof. intros Hf Hd. unfold load, Lstat. by rewrite Hf, Hd. Qed.

Lemma load_nonempty sd w f :
  fs w !! statePath sd = Some (Regular f) → data f ≠ [] →
  readable f = true →
  load decode sd w
  = match decode (data f) (state sd) with
    | Broken m => (Some ErrCorrupt, set_state m sd, w)
    | Decoded m => (None, set_state m sd, w)
    end.
Proof.
  intros Hf Hd Hr. unfold load, Lstat, OpenFile_RDONLY. rewrite Hf, Hr.
  destruct (data f); [done|]. done.
Qed.

(** C4.  With no file at the state path, [load] reports no error, leaves
    the map alone and raises [bootstrap]; with a file of length zero it
    reports no error and changes nothing.  Through [New], whose map
    starts empty and whose [bootstrap] starts false: an empty map with
    [bootstrap] true in the first case, an empty map with [bootstrap]
    false in the second. *)
Theorem load_absent_or_empty c path l d w :
  (fs w !! path = None →
     (∀ sd, statePath sd = path →
            ∃ w', load decode sd w = (None, set_bootstrap true sd, w'))
     ∧ ∃ sd' w',
         New decode (inl c)
             [WithStateFile path; WithLogger l; WithInterval d] w
         = (inl sd', w')
         ∧ state sd' = ∅ ∧ bootstrap sd' = true ∧ fs w' = fs w)
  ∧ (∀ f, fs w !! path = Some (Regular f) → data f = [] →
     (∀ sd, statePath sd = path → load decode sd w = (None, sd, w))
     ∧ ∃ sd',
         New decode (inl c)
             [WithStateFile path; WithLogger l; WithInterval d] w
         = (inl sd', w)
         ∧ state sd' = ∅ ∧ bootstrap sd' = false).
Proof.
  split.
  - intros Hf. split.
    + intros sd <-. eexists. by apply load_absent.
    + rewrite New_load, load_absent by done.
      eexists _, _. split; [done|]. repeat split.
      unfold logf. simpl. by destruct l.
  - intros f Hf Hd. split.
    + intros sd <-. by eapply load_empty.
    + rewrite New_load. erewrite load_empty by done.
      eexists. by split.
Qed.

(** C5.  A state file that is there, is not empty and does not decode
    makes [load] report an error without raising [bootstrap]; whatever the
    decoder left in the map, [New] returns the error and no watcher, with
    the world as it was. *)
Theorem load_corrupt_fails (c : C) opts w f m :
  let sd := configured c opts in
  fs w !! statePath sd = Some (Regular f) →
  data f ≠ [] →
  decode (data f) (state sd) = Broken m →
  ∃ e sd', load decode sd w = (Some e, sd', w)
           ∧ bootstrap sd' = bootstrap sd
           ∧ New decode (inl c) opts w = (inr e, w).
Proof.
  intros sd Hf Hd Hdec. rewrite New_load. fold sd.
  destruct (readable f) eqn:Hr.
  - exists ErrCorrupt, (set_state m sd).
    rewrite (load_nonempty sd w f Hf Hd Hr), Hdec. by split.
  - exists (ErrPermission (statePath sd)), sd.
    assert (load decode sd w = (Some (ErrPermission (statePath sd)), sd, w))
      as ->; [|by split].
    unfold load, Lstat, OpenFile_RDONLY. rewrite Hf, Hr.
    by destruct (data f).
Qed.

Lemma overwrite_longer (bs old : list byte) :
  length bs < length old → overwrite bs old ≠ bs.
Proof.
  unfold overwrite. intros Hlen Heq.
  assert (length (bs ++ drop (length bs) old) = length bs) as Hl
    by by rewrite Heq.
  rewrite length_app, length_drop in Hl. lia.
Qed.

Lemma store_existing sd w f :
  fs w !! statePath sd = Some (Regular f) → writable f = true →
  store encode sd w
  = (None, write_file (statePath sd) f (encode (state sd)) w).
Proof.
  intros Hf Hw. unfold store, OpenFile_CREATE_WRONLY. by rewrite Hf, Hw.
Qed.

Lemma store_absent sd w :
  fs w !! statePath sd = None →
  uncreatable w !! statePath sd = None →
  ∃ w', store encode sd w = (None, w')
        ∧ fs w' !! statePath sd
          = Some (Regular (mkFile (encode (state sd)) true true)).
Proof.
  intros Hf Hu. unfold store, OpenFile_CREATE_WRONLY. rewrite Hf, Hu.
  eexists. split; [done|]. unfold write_file, overwrite. simpl.
  by rewrite lookup_insert_eq, drop_nil, app_nil_r.
Qed.

Lemma store_keeps_log sd w r w' :
  store encode sd w = (r, w') → logged w' = logged w.
Proof. store_cases sd w; by intros [= _ <-]. Qed.


(** C6, as the code has it.  Over a writable file that is longer than the
    new encoding, [store] succeeds and leaves the new encoding followed by
    the old bytes beyond its length: the file does not hold the encoding
    alone. *)
Theorem store_leaves_old_tail sd w f :
  fs w !! statePath sd = Some (Regular f) →
  writable f = true →
  length (encode (state sd)) < length (data f) →
  ∃ w' f',
    store encode sd w = (None, w')
    ∧ fs w' !! statePath sd = Some (Regular f')
    ∧ data f' = encode (state sd)
                  ++ drop (length (encode (state sd))) (data f)
    ∧ data f' ≠ encode (state sd).
Proof.
  intros Hf Hw Hlen. rewrite (store_existing sd w f Hf Hw).
  eexists _, _. split; [done|]. unfold write_file. simpl.
  rewrite lookup_insert_eq. split; [done|]. simpl.
  split; [done|]. by apply overwrite_longer.
Qed.


End StateFile.

(** ** The concrete codec gives back what it was given *)








Lemma load_absent_or_empty_witness :
  (∃ sd' w',
      New Codec.decode (scripted [])
          [WithStateFile "systemd.state"; WithLogger None;
           WithInterval DefaultInterval] empty_world
      = (inl sd', w')
      ∧ state sd' = ∅ ∧ bootstrap sd' = true ∧ fs w' = fs empty_world)
  ∧ (∃ sd',
      New Codec.decode (scripted [])
          [WithStateFile "systemd.state"; WithLogger None;
           WithInterval DefaultInterval] (world_with (mkFile [] true true))
      = (inl sd', world_with (mkFile [] true true))
      ∧ state sd' = ∅ ∧ bootstrap sd' = false).
Proof.
  split.
  - refine (proj2 (proj1 (load_absent_or_empty Codec.decode (mkScript [])
                            "systemd.state" None DefaultInterval empty_world)
                         _)).
    reflexivity.
  - refine (proj2 (proj2 (load_absent_or_empty Codec.decode (mkScript [])
                            "systemd.state" None DefaultInterval
                            (world_with (mkFile [] true true)))
                         (mkFile [] true true) _ _)).
    + reflexivity.
    + reflexivity.
Defined.

Lemma load_corrupt_fails_witness :
  ∃ e, New Codec.decode (scripted []) [] (world_with cut_file)
       = (inr e, world_with cut_file).
Proof.
  destruct (load_corrupt_fails Codec.decode (mkScript []) []
              (world_with cut_file) cut_file ssh_only)
    as (e & sd' & _ & _ & HN).
  - reflexivity.
  - discriminate.
  - vm_compute. reflexivity.
  - exists e. exact HN.
Defined.

Lemma store_leaves_old_tail_witness :
  ∃ w' f',
    store Codec.encode (watcher [] ssh_only false)
          (world_with (file_of ssh_and_cron)) = (None, w')
    ∧ fs w' !! DefaultStateFile = Some (Regular f')
    ∧ data f' ≠ Codec.encode ssh_only.
Proof.
  destruct (store_leaves_old_tail Codec.encode (watcher [] ssh_only false)
              (world_with (file_of ssh_and_cron)) (file_of ssh_and_cron))
    as (w' & f' & Hs & Hf & _ & Hne).
  - reflexivity.
  - reflexivity.
  - vm_compute. lia.
  - by exists w', f'.
Defined.


(** ** What a pass logs and what it leaves in the map *)

Lemma snapshot_of_listed units k u :
  snapshot_of units !! k = Some u → listed k units = true.
Proof.
  intros Hk. destruct (listed k units) eqn:E; [done|].
  change (overlay ∅ units !! k = Some u) in Hk.
  by rewrite overlay_unlisted, lookup_empty in Hk.
Qed.

Lemma overlay_sound m units k u :
  overlay m units !! k = Some u →
  m !! k = Some u ∨ ∃ s, s ∈ units ∧ Path s = k ∧ u = mkUnit s.
Proof.
  revert m. induction units as [|s rest IH]; intros m Hk; [by left|].
  rewrite overlay_cons in Hk. apply IH in Hk as [Hk|(s' & Hin & Hp & Hu)].
  - destruct (decide (Path s = k)) as [Heq|Hne].
    + subst k. rewrite lookup_insert_eq in Hk. right. exists s.
      split; [by left|]. split; [done|]. congruence.
    + rewrite lookup_insert_ne in Hk by done. by left.
  - right. exists s'. split; [by right | done].
Qed.

Lemma snapshot_of_sound units k u :
  snapshot_of units !! k = Some u → ∃ s, s ∈ units ∧ Path s = k ∧ u = mkUnit s.
Proof.
  intros Hk. change (overlay ∅ units !! k = Some u) in Hk.
  apply overlay_sound in Hk as [Hk|Hk]; [|done].
  by rewrite lookup_empty in Hk.
Qed.

Lemma overlay_listed_some m units k :
  listed k units = true → is_Some (overlay m units !! k).
Proof.
  revert m. induction units as [|s rest IH]; intros m Hl; [done|].
  rewrite overlay_cons. destruct (listed k rest) eqn:El; [by apply IH|].
  simpl in Hl. rewrite El in Hl.
  destruct (String.eqb_spec (Path s) k) as [Heq|Hne]; [|done].
  rewrite overlay_unlisted by done. subst k. rewrite lookup_insert_eq.
  by eexists.
Qed.

Lemma snapshot_of_complete units s :
  s ∈ units → is_Some (snapshot_of units !! Path s).
Proof.
  intros Hin. apply (overlay_listed_some ∅). apply listed_spec.
  by apply list_elem_of_fmap_2.
Qed.

Lemma unlisted_overlay units (m : gmap string Unit) :
  unlisted units (map_to_list (overlay m units))
  ≡ₚ unlisted units (map_to_list m).
Proof.
  unfold unlisted. apply NoDup_Permutation.
  - apply NoDup_filter, NoDup_map_to_list.
  - apply NoDup_filter, NoDup_map_to_list.
  - intros [k u]. rewrite !list_elem_of_filter, !elem_of_map_to_list. simpl.
    split; intros [Hl Hm]; (split; [done|]).
    + by rewrite overlay_unlisted in Hm.
    + by rewrite overlay_unlisted.
Qed.

Section Diff.
Context {C : Type} `{Conn C}.
Variable encode : gmap string Unit → list byte.
Variable decode : list byte → gmap string Unit → decoded.
Implicit Types (sd : Systemd C) (w : World) (units : list UnitStatus).

Lemma finish_keeps_watcher sd w flush r sd' w' :
  finish encode (sd, w, flush) = (r, sd', w') → sd' = sd.
Proof.
  unfold finish. destruct flush; [|by intros [= _ <- _]].
  destruct (store encode sd w) as [[e|] w1]; by intros [= _ <- _].
Qed.

(** C3, as the code has it.  Take a watcher with a logger, a pass that is
    not the silenced first pass of a bootstrap run, and a listing in which
    no two units share a path.  The pass logs one status line for each
    listed unit whose path the map lacked or held with another record, in
    the order of the listing, the same kind of line in both cases; then
    one "deleted" line for each entry of the map whose path is not
    listed, in some order; and nothing for a listed unit the map held
    unchanged.  Afterwards the map binds every listed unit under its path
    and nothing else. *)
Theorem pass_lines_and_map units sd w l :
  NoDup (Path <$> units) →
  logger sd = Some l →
  ∃ sd' w' flush gone,
    diff false units sd w = (sd', w', flush)
    ∧ logged w'
      = logged w
        ++ (status_line <$> filter (fun s => differs (state sd) s = true) units)
        ++ (deleted_line <$> gone)
    ∧ gone ≡ₚ (unlisted units (map_to_list (state sd))).*2
    ∧ (∀ s, s ∈ units → state sd' !! Path s = Some (mkUnit s))
    ∧ (∀ k, k ∉ Path <$> units → state sd' !! k = None)
    ∧ fs w' = fs w ∧ writes w' = writes w.
Proof.
  intros Hnd Hl. rewrite diff_eq.
  eexists _, _, _, _. split; [done|]. simpl.
  unfold pass_lines, heard. rewrite Hl, (touched_nodup _ _ Hnd).
  split; [done|]. split; [by rewrite unlisted_overlay|].
  split; [|split; [|done]].
  - intros s Hs. by apply (overlay_last ∅).
  - intros k Hk. apply listed_false in Hk.
    change (overlay ∅ units !! k = None).
    by rewrite overlay_unlisted, lookup_empty.
Qed.

(** C8, as the code has it.  Let two passes in a row get the same listing,
    one in which no two units share a path, and let the first go through.
    Then the second logs nothing, calls [store] not at all, leaves files
    and map as they are, and ends in the sleep. *)
Theorem unchanged_listing_is_silent first sd w units c1 sd1 w1 c2 :
  NoDup (Path <$> units) →
  ListUnits (conn sd) = (units, None, c1) →
  cycle encode first sd w = (Slept, sd1, w1) →
  ListUnits (conn sd1) = (units, None, c2) →
  ∃ sd2 w2,
    cycle encode false sd1 w1 = (Slept, sd2, w2)
    ∧ logged w2 = logged w1
    ∧ writes w2 = writes w1
    ∧ fs w2 = fs w1
    ∧ state sd2 = state sd1.
Proof.
  intros Hnd HL1 Hc1 HL2.
  rewrite (cycle_listing_ok encode _ _ _ _ _ HL1), diff_eq in Hc1.
  apply finish_keeps_watcher in Hc1.
  assert (state sd1 = snapshot_of units) as Hst by by subst sd1.
  rewrite (cycle_listing_ok encode _ _ _ _ _ HL2), diff_eq.
  destruct (settled_pass (bootstrap sd1 && false) units
              (set_conn c2 sd1) Hnd Hst) as [-> ->].
  simpl. eexists _, _. split; [done|]. simpl.
  by rewrite app_nil_r.
Qed.

Lemma touched_fresh units : units ≠ [] → touched ∅ units ≠ [].
Proof.
  destruct units as [|s rest]; [done|]. intros _. simpl.
  unfold differs. by rewrite lookup_empty, bool_decide_eq_true_2.
Qed.

End Diff.

Lemma pass_lines_and_map_witness :
  ∃ sd' w' flush,
    diff false [ssh_failed; cron_running] (watcher [] ssh_only false)
         empty_world = (sd', w', flush)
    ∧ logged w' = ["ssh.service active=failed load=loaded sub=failed";
                   "cron.service active=active load=loaded sub=running"]
    ∧ state sd' !! "/unit/ssh" = Some (mkUnit ssh_failed)
    ∧ state sd' !! "/unit/cron" = Some (mkUnit cron_running).
Proof.
  destruct (pass_lines_and_map [ssh_failed; cron_running]
              (watcher [] ssh_only false) empty_world (mkLogger "[systemd] "))
    as (sd' & w' & flush & gone & Hd & Hlog & Hgone & Hin & _).
  - by apply (bool_decide_unpack _).
  - reflexivity.
  - exists sd', w', flush. split; [exact Hd|].
    assert (gone = []) as ->.
    { apply Permutation_nil_r. rewrite Hgone. vm_compute. reflexivity. }
    split; [exact Hlog|]. split.
    + apply (Hin ssh_failed). by left.
    + apply (Hin cron_running). right. by left.
Defined.

(** C3, where the claim fails.  A unit absent from the map and a unit held
    with another record are logged by the very same line, so the log keeps
    no trace of which of the two happened.  And a listing that names one
    path twice, here absent from the map, yields two lines for that one
    path. *)
Lemma added_and_changed_log_alike :
  logged (diff false [ssh_running] (watcher [] ∅ false) empty_world).1.2
  = ["ssh.service active=active load=loaded sub=running"]
  ∧ logged (diff false [ssh_running]
                 (watcher [] {[ "/unit/ssh" := mkUnit ssh_failed ]} false)
                 empty_world).1.2
    = ["ssh.service active=active load=loaded sub=running"]
  ∧ Path <$> [ssh_running; ssh_failed] = ["/unit/ssh"; "/unit/ssh"]
  ∧ logged (diff false [ssh_running; ssh_failed] (watcher [] ∅ false)
                 empty_world).1.2
    = ["ssh.service active=active load=loaded sub=running";
       "ssh.service active=failed load=loaded sub=failed"].
Proof. repeat split; vm_compute; reflexivity. Qed.

Lemma unchanged_listing_is_silent_witness :
  ∃ sd1 w1 sd2 w2,
    cycle Codec.encode true
          (watcher [([ssh_running; cron_running], None);
                    ([ssh_running; cron_running], None)] ∅ true)
          empty_world = (Slept, sd1, w1)
    ∧ cycle Codec.encode false sd1 w1 = (Slept, sd2, w2)
    ∧ logged w2 = logged w1
    ∧ writes w2 = writes w1.
Proof.
  set (sd := watcher [([ssh_running; cron_running], None);
                      ([ssh_running; cron_running], None)] ∅ true).
  assert (∃ sd1 w1,
             cycle Codec.encode true sd empty_world = (Slept, sd1, w1)
             ∧ ListUnits (conn sd1)
               = ([ssh_running; cron_running], None, mkScript []))
    as (sd1 & w1 & Hc & HL2).
  { eexists _, _. split; vm_compute; reflexivity. }
  destruct (unchanged_listing_is_silent Codec.encode true sd empty_world
              [ssh_running; cron_running]
              (mkScript [([ssh_running; cron_running], None)])
              sd1 w1 (mkScript []))
    as (sd2 & w2 & Hc2 & Hlog & Hwr & _).
  - by apply (bool_decide_unpack _).
  - reflexivity.
  - exact Hc.
  - exact HL2.
  - exists sd1, w1, sd2, w2. split; [exact Hc|]. split; [exact Hc2|].
    split; [exact Hlog | exact Hwr].
Defined.

(** C8, where the claim fails.  A listing that names one path twice with
    two different records, seen in two passes in a row: the second pass
    logs both records again and calls [store] again. *)
Lemma repeated_path_is_not_silent :
  ∃ sd1 w1 sd2 w2,
    cycle Codec.encode true
          (watcher [([ssh_running; ssh_failed], None);
                    ([ssh_running; ssh_failed], None)] ∅ false)
          empty_world = (Slept, sd1, w1)
    ∧ cycle Codec.encode false sd1 w1 = (Slept, sd2, w2)
    ∧ logged w2
      = logged w1 ++ ["ssh.service active=active load=loaded sub=running";
                      "ssh.service active=failed load=loaded sub=failed"]
    ∧ length (writes w1) = 1
    ∧ length (writes w2) = 2.
Proof.
  eexists _, _, _, _. split; [vm_compute; reflexivity|].
  split; [vm_compute; reflexivity|].
  split; [vm_compute; reflexivity|].
  split; vm_compute; reflexivity.
Qed.

(** ** A run of two passes

    A map holding ssh; the listing first adds cron, then drops ssh and
    shows cron with another status.  The log gets one line for the new
    unit, then one for the changed unit and one for the deleted one, and
    the map ends up with cron alone. *)
Example two_passes :
  ∃ sd' w',
    Next Codec.encode 2
         (watcher [([ssh_running; cron_running], None);
                   ([unit_of "cron.service" "/unit/cron" "failed" "loaded"
                             "failed"], None)]
                  ssh_only false)
         empty_world = Polling sd' w'
    ∧ logged w' = ["cron.service active=active load=loaded sub=running";
                   "cron.service active=failed load=loaded sub=failed";
                   "ssh.service deleted"]
    ∧ map_to_list (state sd')
      = [("/unit/cron",
          mkUnit (unit_of "cron.service" "/unit/cron" "failed" "loaded"
                          "failed"))]
    ∧ length (writes w') = 2.
Proof.
  eexists _, _. split; [vm_compute; reflexivity|].
  repeat split; vm_compute; reflexivity.
Qed.

(** ** Beyond the claims: what every pass keeps *)

Section Invariants.
Context {C : Type} `{Conn C}.
Variable encode : gmap string Unit → list byte.
Variable decode : list byte → gmap string Unit → decoded.
Implicit Types (sd : Systemd C) (w : World) (units : list UnitStatus).

Lemma cycle_listing_ok_eq first sd w units c :
  ListUnits (conn sd) = (units, None, c) →
  cycle encode first sd w
  = finish encode (set_state (snapshot_of units) (set_conn c sd),
                   add_logs (pass_lines (bootstrap sd && first) units sd) w,
                   pass_flush units sd).
Proof.
  intros HL. by rewrite (cycle_listing_ok encode _ _ _ _ _ HL), diff_eq.
Qed.

Lemma store_world sd w r w' :
  store encode sd w = (r, w') →
  logged w' = logged w ∧ slept w' = slept w ∧ printed w' = printed w.
Proof. store_cases sd w; by intros [= _ <-]. Qed.

Lemma store_failed sd w e w' : store encode sd w = (Some e, w') → w' = w.
Proof. store_cases sd w; by intros [= _ <-]. Qed.

Lemma store_done sd w w' :
  store encode sd w = (None, w') →
  writes w' = writes w ++ [(statePath sd, encode (state sd))].
Proof. store_cases sd w; by intros [= <-]. Qed.

(** What the end of a pass does to the world, case by case. *)
Lemma finish_cases sd w flush r sd' w' :
  finish encode (sd, w, flush) = (r, sd', w') →
  sd' = sd
  ∧ logged w' = logged w
  ∧ printed w' = printed w
  ∧ match r with
    | Slept => slept w' = slept w ++ [interval sd]
    | Failed _ => slept w' = slept w ∧ writes w' = writes w ∧ fs w' = fs w
    end.
Proof.
  unfold finish. destruct flush.
  - destruct (store encode sd w) as [[e|] w1] eqn:Hs; intros [= <- <- <-].
    + apply store_failed in Hs. by subst w1.
    + apply store_world in Hs as (Hl & Hsl & Hp). simpl.
      by rewrite Hl, Hsl, Hp.
  - by intros [= <- <- <-].
Qed.

Lemma cycle_config first sd w r sd' w' :
  cycle encode first sd w = (r, sd', w') →
  statePath sd' = statePath sd ∧ logger sd' = logger sd
  ∧ interval sd' = interval sd ∧ bootstrap sd' = bootstrap sd.
Proof.
  destruct (ListUnits (conn sd)) as [[units [e|]] c] eqn:HL.
  - rewrite (cycle_listing_failed encode _ _ _ _ _ _ HL). by intros [= _ <- _].
  - rewrite (cycle_listing_ok_eq _ _ _ _ _ HL).
    intros Hf. apply finish_cases in Hf as (-> & _). done.
Qed.

Lemma cycle_quiet_logger first sd w r sd' w' :
  logger sd = None →
  cycle encode first sd w = (r, sd', w') → logged w' = logged w.
Proof.
  intros Hl. destruct (ListUnits (conn sd)) as [[units [e|]] c] eqn:HL.
  - rewrite (cycle_listing_failed encode _ _ _ _ _ _ HL). by intros [= _ _ <-].
  - rewrite (cycle_listing_ok_eq _ _ _ _ _ HL).
    intros Hf. apply finish_cases in Hf as (_ & -> & _). simpl.
    unfold pass_lines, heard. rewrite Hl.
    destruct (bootstrap sd && first); simpl; by rewrite app_nil_r.
Qed.

(** X2.  However long [Next] runs and however it ends, the watcher keeps
    the state path, the logger, the interval and the bootstrap flag it
    started with: no pass changes the configuration, and [bootstrap], once
    raised by [load], is never lowered. *)
Theorem Next_keeps_configuration fuel first sd w :
  let sd' := outcome_watcher (Next_loop encode fuel first sd w) in
  statePath sd' = statePath sd ∧ logger sd' = logger sd
  ∧ interval sd' = interval sd ∧ bootstrap sd' = bootstrap sd.
Proof.
  revert first sd w. induction fuel as [|fuel IH]; intros first sd w; [done|].
  simpl. destruct (cycle encode first sd w) as [[[e|] sd1] w1] eqn:Hc.
  - simpl. by eapply cycle_config.
  - apply cycle_config in Hc as (Hp & Hl & Hi & Hb).
    specialize (IH false sd1 w1). simpl in IH.
    by rewrite <- Hp, <- Hl, <- Hi, <- Hb.
Qed.

(** X1.  A watcher without a logger writes no log line at all: not when
    [load] finds the state file missing, and not in any pass of [Next],
    whatever appears, changes or goes away. *)
Theorem nil_logger_is_silent sd w :
  logger sd = None →
  logged (load decode sd w).2 = logged w
  ∧ ∀ fuel first,
      logged (outcome_world (Next_loop encode fuel first sd w)) = logged w.
Proof.
  intros Hl. split.
  - unfold load. destruct (Lstat w (statePath sd)) as [n|e].
    + destruct (Nat.eqb n 0); [done|].
      destruct (OpenFile_RDONLY w (statePath sd)) as [bs|e]; [|done].
      by destruct (decode bs (state sd)).
    + destruct (IsNotExist e); [|done]. unfold logf. simpl. by rewrite Hl.
  - intros fuel. revert sd w Hl.
    induction fuel as [|fuel IH]; intros sd w Hl first; [done|].
    simpl. destruct (cycle encode first sd w) as [[[e|] sd1] w1] eqn:Hc.
    + simpl. by eapply cycle_quiet_logger.
    + pose proof (cycle_quiet_logger _ _ _ _ _ _ Hl Hc) as Hlog.
      apply cycle_config in Hc as (_ & Hl1 & _).
      rewrite IH by by rewrite Hl1. done.
Qed.

(** X3.  A pass whose listing call succeeded leaves the map of that listing,
    each listed path bound to the last unit listed under it and nothing
    else, whatever the map held before, whether or not the pass is
    silenced, and also when the flush fails afterwards. *)
Theorem pass_leaves_listing_map first sd w units c :
  ListUnits (conn sd) = (units, None, c) →
  state (cycle encode first sd w).1.2 = snapshot_of units.
Proof.
  intros HL. rewrite (cycle_listing_ok_eq _ _ _ _ _ HL).
  destruct (finish encode _) as [[r sd'] w'] eqn:Hf.
  apply finish_cases in Hf as (-> & _). done.
Qed.

End Invariants.

(** ** The first pass of a bootstrap run *)

Section Bootstrap.
Context {C : Type} `{Conn C}.
Variable encode : gmap string Unit → list byte.
Variable decode : list byte → gmap string Unit → decoded.
Implicit Types (sd : Systemd C) (w : World) (units : list UnitStatus).

Lemma cycle_logged first sd w units c :
  ListUnits (conn sd) = (units, None, c) →
  logged (cycle encode first sd w).2
  = logged w ++ pass_lines (bootstrap sd && first) units sd.
Proof.
  intros HL. rewrite (cycle_listing_ok_eq encode _ _ _ _ _ HL).
  destruct (finish encode _) as [[r sd'] w'] eqn:Hf.
  apply finish_cases in Hf as (_ & Hlog & _). simpl. by rewrite Hlog.
Qed.

Lemma passes_false k sd w first' sd' w' :
  passes encode k false sd w = Some (first', sd', w') →
  first' = false ∧ logger sd' = logger sd.
Proof.
  revert sd w. induction k as [|k IH]; intros sd w Hp.
  - simpl in Hp. by simplify_eq.
  - simpl in Hp.
    destruct (cycle encode false sd w) as [[[e|] sd1] w1] eqn:Hc; [done|].
    apply cycle_config in Hc as (_ & <- & _). by apply IH in Hp.
Qed.

(** Past the first pass [first] is false, and the logger is the one the
    call started with. *)
Lemma passes_later k first sd w first' sd' w' :
  passes encode (S k) first sd w = Some (first', sd', w') →
  first' = false ∧ logger sd' = logger sd.
Proof.
  simpl. destruct (cycle encode first sd w) as [[[e|] sd1] w1] eqn:Hc; [done|].
  apply cycle_config in Hc as (_ & <- & _). apply passes_false.
Qed.

(** C2.  With no file at the state path, [New] gives a watcher with an
    empty map and [bootstrap] raised.  Its first pass over a listing that
    is not empty logs nothing and leaves a map whose entries are listed
    units under their own paths, one for every listed path, whether the
    flush that follows succeeds (then [Next] goes on with [first] false) or
    fails (then [Next] returns that error).  Every later pass of that call
    logs what it finds: over a listing with distinct paths, one status
    line for each listed unit the map lacked or held with another record,
    then one "deleted" line for each entry whose path is not listed. *)
Theorem bootstrap_first_pass_is_silent (c : C) path lg d w units c1 :
  fs w !! path = None →
  units ≠ [] →
  ListUnits c = (units, None, c1) →
  ∃ sd0 w0 r sd1 w1,
    New decode (inl c)
        [WithStateFile path; WithLogger (Some lg); WithInterval d] w
    = (inl sd0, w0)
    ∧ bootstrap sd0 = true ∧ state sd0 = ∅
    ∧ cycle encode true sd0 w0 = (r, sd1, w1)
    ∧ logged w1 = logged w0
    ∧ state sd1 = snapshot_of units
    ∧ (∀ k u, state sd1 !! k = Some u →
              ∃ s, s ∈ units ∧ Path s = k ∧ u = mkUnit s)
    ∧ (∀ s, s ∈ units → is_Some (state sd1 !! Path s))
    ∧ match r with
      | Slept =>
          ∀ n, Next encode (S n) sd0 w0 = Next_loop encode n false sd1 w1
      | Failed e =>
          ∀ n, Next encode (S n) sd0 w0 = Return [] (Some e) sd1 w1
      end
    ∧ (∀ k first_k sd_k w_k units' c',
          passes encode (S k) true sd0 w0 = Some (first_k, sd_k, w_k) →
          ListUnits (conn sd_k) = (units', None, c') →
          NoDup (Path <$> units') →
          ∃ gone,
            logged (cycle encode first_k sd_k w_k).2
            = logged w_k
              ++ (status_line <$>
                    filter (fun s => differs (state sd_k) s = true) units')
              ++ (deleted_line <$> gone)
            ∧ gone ≡ₚ (unlisted units' (map_to_list (state sd_k))).*2).
Proof.
  intros Hf Hne HL. rewrite New_load, load_absent by done.
  set (sd0 := set_bootstrap true _). set (w0 := logf sd0 _ w).
  assert (ListUnits (conn sd0) = (units, None, c1)) as HL0 by done.
  destruct (cycle encode true sd0 w0) as [[r sd1] w1] eqn:Hc.
  pose proof (cycle_logged true sd0 w0 units c1 HL0) as Hlog.
  pose proof (cycle_listing_ok_eq encode true sd0 w0 units c1 HL0) as Hc'.
  rewrite Hc in Hlog, Hc'. symmetry in Hc'.
  apply finish_cases in Hc' as (Hsd & _).
  assert (pass_lines (bootstrap sd0 && true) units sd0 = []) as Hsilent.
  { unfold pass_lines. simpl.
    rewrite unlisted_none; [done|].
    intros [k u] Hin. apply elem_of_map_to_list in Hin.
    by eapply snapshot_of_listed. }
  rewrite Hsilent, app_nil_r in Hlog. simpl in Hlog.
  assert (state sd1 = snapshot_of units) as Hst by by subst sd1.
  exists sd0, w0, r, sd1, w1.
  split; [done|]. split; [done|]. split; [done|]. split; [done|].
  split; [done|]. split; [done|].
  split; [intros k u; rewrite Hst; apply snapshot_of_sound|].
  split; [intros s; rewrite Hst; apply snapshot_of_complete|].
  split.
  - destruct r as [e|]; intros n; unfold Next; simpl; by rewrite Hc.
  - intros k first_k sd_k w_k units' c' Hp HLk Hnd.
    apply passes_later in Hp as [-> Hlg].
    rewrite (cycle_logged false sd_k w_k units' c' HLk), andb_false_r.
    unfold pass_lines, heard. rewrite Hlg. simpl.
    rewrite (touched_nodup _ _ Hnd).
    eexists. split; [done|]. by rewrite unlisted_overlay.
Qed.

End Bootstrap.

Lemma bootstrap_first_pass_is_silent_witness :
  ∃ sd0 w0 r sd1 w1,
    New Codec.decode
        (scripted [([ssh_running; cron_running], None); ([ssh_failed], None)])
        [WithStateFile DefaultStateFile;
         WithLogger (Some (mkLogger "[systemd] "));
         WithInterval DefaultInterval] empty_world
    = (inl sd0, w0)
    ∧ cycle Codec.encode true sd0 w0 = (r, sd1, w1)
    ∧ logged w1 = logged w0
    ∧ state sd1 = snapshot_of [ssh_running; cron_running].
Proof.
  destruct (bootstrap_first_pass_is_silent Codec.encode Codec.decode
              (mkScript [([ssh_running; cron_running], None);
                         ([ssh_failed], None)])
              DefaultStateFile (mkLogger "[systemd] ")
              DefaultInterval empty_world [ssh_running; cron_running]
              (mkScript [([ssh_failed], None)]))
    as (sd0 & w0 & r & sd1 & w1 & HN & _ & _ & Hc & Hlog & Hst & _).
  - reflexivity.
  - discriminate.
  - reflexivity.
  - exists sd0, w0, r, sd1, w1. split; [exact HN|]. split; [exact Hc|].
    split; [exact Hlog | exact Hst].
Defined.

(** ** Beyond the claims: the passes of [Next] *)

Section Loop.
Context {C : Type} `{Conn C}.
Variable encode : gmap string Unit → list byte.
Implicit Types (sd : Systemd C) (w : World) (units : list UnitStatus).

(** X4.  The first pass of a call of [Next] on a watcher with [bootstrap]
    raised logs no status line, whatever the listing shows; but it does log
    one "deleted" line for every entry of the map whose path is not listed,
    and nothing else. *)
Theorem silenced_pass_logs_deletions sd w units c :
  bootstrap sd = true →
  ListUnits (conn sd) = (units, None, c) →
  ∃ gone,
    logged (cycle encode true sd w).2
    = logged w ++ heard sd (deleted_line <$> gone)
    ∧ gone ≡ₚ (unlisted units (map_to_list (state sd))).*2.
Proof.
  intros Hb HL. rewrite (cycle_listing_ok_eq encode _ _ _ _ _ HL), Hb.
  destruct (finish encode _) as [[r sd'] w'] eqn:Hf.
  apply finish_cases in Hf as (_ & Hlog & _). simpl. rewrite Hlog. simpl.
  eexists. split; [done|]. by rewrite unlisted_overlay.
Qed.

Lemma cycle_slept first sd w r sd' w' :
  cycle encode first sd w = (r, sd', w') →
  slept w' = slept w ++ match r with
                        | Slept => [interval sd]
                        | Failed _ => []
                        end.
Proof.
  destruct (ListUnits (conn sd)) as [[units [e|]] c] eqn:HL.
  - rewrite (cycle_listing_failed encode _ _ _ _ _ _ HL).
    intros [= <- _ <-]. by rewrite app_nil_r.
  - rewrite (cycle_listing_ok_eq encode _ _ _ _ _ HL).
    intros Hf. apply finish_cases in Hf as (_ & _ & _ & Hr).
    destruct r; [|done]. destruct Hr as [-> _]. by rewrite app_nil_r.
Qed.

(** X10.  [Next] sleeps once after every pass that goes through, each time
    for the interval the watcher was configured with, and does not sleep
    after the pass that fails: after [k] passes that went through, the
    world has [k] more sleeps of that interval, and a (k+1)-th pass that
    fails adds none. *)
Theorem sleeps_once_per_pass k first sd w first' sd' w' :
  passes encode k first sd w = Some (first', sd', w') →
  slept w' = slept w ++ replicate k (interval sd)
  ∧ ∀ e sd'' w'',
      cycle encode first' sd' w' = (Failed e, sd'', w'') → slept w'' = slept w'.
Proof.
  intros Hp. split.
  - revert first sd w Hp. induction k as [|k IH]; intros first sd w Hp.
    + simpl in Hp. simplify_eq. simpl. by rewrite app_nil_r.
    + simpl in Hp.
      destruct (cycle encode first sd w) as [[[e|] sd1] w1] eqn:Hc; [done|].
      apply IH in Hp. rewrite Hp.
      pose proof (cycle_slept _ _ _ _ _ _ Hc) as ->.
      apply cycle_config in Hc as (_ & _ & -> & _).
      simpl. by rewrite <- app_assoc.
  - intros e sd'' w'' Hc. apply cycle_slept in Hc. by rewrite app_nil_r in Hc.
Qed.

(** X9.  A call of [Next] returns exactly when one of its passes fails, and
    then with a nil batch and the error of the first pass that failed; as
    long as every pass goes through it is still polling, with the watcher
    and the world those passes have produced. *)
Theorem Next_returns_iff_a_pass_fails fuel first sd w :
  (∀ changes err sd' w',
      Next_loop encode fuel first sd w = Return changes err sd' w'
      ↔ ∃ k first_k sd_k w_k e,
          k < fuel
          ∧ passes encode k first sd w = Some (first_k, sd_k, w_k)
          ∧ cycle encode first_k sd_k w_k = (Failed e, sd', w')
          ∧ changes = [] ∧ err = Some e)
  ∧ (∀ sd' w',
      Next_loop encode fuel first sd w = Polling sd' w'
      ↔ ∃ first', passes encode fuel first sd w = Some (first', sd', w')).
Proof.
  revert first sd w. induction fuel as [|fuel IH]; intros first sd w.
  - split.
    + intros changes err sd' w'. simpl. split; [done|].
      intros (k & ? & ? & ? & ? & Hk & _). lia.
    + intros sd' w'. simpl. split.
      * intros [= <- <-]. by eexists.
      * by intros [first' [= _ <- <-]].
  - simpl. destruct (cycle encode first sd w) as [[[e|] sd1] w1] eqn:Hc.
    + split.
      * intros changes err sd' w'. split.
        -- intros [= <- <- <- <-]. exists 0, first, sd, w, e.
           split; [lia|]. by repeat split.
        -- intros (k & fk & sdk & wk & e' & Hk & Hp & Hck & -> & ->).
           destruct k as [|k]; simpl in Hp.
           ++ simplify_eq. rewrite Hc in Hck. by simplify_eq.
           ++ by rewrite Hc in Hp.
      * intros sd' w'. split; [done|]. by intros [first' ?].
    + destruct (IH false sd1 w1) as [IHr IHp]. split.
      * intros changes err sd' w'. rewrite IHr. split.
        -- intros (k & fk & sdk & wk & e' & Hk & Hp & Hck & -> & ->).
           exists (S k), fk, sdk, wk, e'. split; [lia|]. simpl. rewrite Hc.
           by repeat split.
        -- intros (k & fk & sdk & wk & e' & Hk & Hp & Hck & -> & ->).
           destruct k as [|k]; simpl in Hp.
           ++ simplify_eq. rewrite Hc in Hck. by simplify_eq.
           ++ rewrite Hc in Hp. exists k, fk, sdk, wk, e'.
              split; [lia|]. by repeat split.
      * intros sd' w'. by rewrite IHp.
Qed.

Lemma touched_nil_all m units :
  touched m units = [] → ∀ s, s ∈ units → m !! Path s = Some (mkUnit s).
Proof.
  induction units as [|s rest IH]; intros Ht s' Hin.
  - by apply elem_of_nil in Hin.
  - simpl in Ht. destruct (differs m s) eqn:E; [done|].
    apply differs_false in E. apply elem_of_cons in Hin as [->|Hin]; [done|].
    by apply IH.
Qed.

Lemma unlisted_nil_all units entries :
  unlisted units entries = [] → ∀ e, e ∈ entries → listed e.1 units = true.
Proof.
  intros Hu e Hin. destruct (listed e.1 units) eqn:E; [done|].
  exfalso. eapply (filter_nil_not_elem_of _ entries e); [exact Hu|done|done].
Qed.

(** Nothing to flush means the map already is the map of the listing. *)
Lemma settled_map units sd :
  pass_flush units sd = false → state sd = snapshot_of units.
Proof.
  unfold pass_flush. intros Hf. apply orb_false_elim in Hf as [Ht Hu].
  apply negb_false_iff, bool_decide_eq_true_1 in Ht.
  apply negb_false_iff, bool_decide_eq_true_1 in Hu.
  pose proof (touched_nil_all _ _ Ht) as Hall.
  rewrite (overlay_same _ _ Hall) in Hu.
  pose proof (unlisted_nil_all _ _ Hu) as Hkeys.
  apply map_eq. intros k. change (snapshot_of units) with (overlay ∅ units).
  destruct (listed k units) eqn:E.
  - rewrite <- (overlay_listed (state sd) ∅ units k E).
    by rewrite (overlay_same _ _ Hall).
  - rewrite overlay_unlisted, lookup_empty by done.
    destruct (state sd !! k) as [u|] eqn:Ek; [|done].
    apply elem_of_map_to_list in Ek. apply Hkeys in Ek. simpl in Ek. congruence.
Qed.

(** X15.  For a listing in which no two units share a path, a pass that
    goes through calls [store] exactly when the map it found differs from
    the map of the listing; and what it then writes, to the state path, is
    the encoding of the new map. *)
Theorem flush_iff_map_changed first sd w units c sd' w' :
  NoDup (Path <$> units) →
  ListUnits (conn sd) = (units, None, c) →
  cycle encode first sd w = (Slept, sd', w') →
  (state sd = snapshot_of units ∧ writes w' = writes w)
  ∨ (state sd ≠ snapshot_of units
     ∧ writes w' = writes w ++ [(statePath sd, encode (snapshot_of units))]).
Proof.
  intros Hnd HL. rewrite (cycle_listing_ok_eq encode _ _ _ _ _ HL).
  destruct (pass_flush units sd) eqn:Hfl.
  - intros Hf. right. split.
    + intros Hst. destruct (settled_pass false units sd Hnd Hst) as [_ Hno].
      congruence.
    + unfold finish in Hf.
      destruct (store encode _ _) as [[e|] w1] eqn:Hs; [done|].
      injection Hf as _ <-. apply store_done in Hs. simpl in *. by rewrite Hs.
  - intros Hf. left. split; [by apply settled_map|].
    unfold finish in Hf. by injection Hf as _ <-.
Qed.

End Loop.

(** X11.  Over a connection that always gives the same listing, with no two
    units sharing a path: once one pass has gone through, [Next] never
    returns, and however many passes follow they log nothing more, write
    nothing more and leave the state file and the map as they are. *)
Theorem steady_listing_settles (encode : gmap string Unit → list byte)
        first (sd : Systemd Steady) w sd1 w1 fuel :
  NoDup (Path <$> steady_units (conn sd)) →
  cycle encode first sd w = (Slept, sd1, w1) →
  ∃ w',
    Next_loop encode fuel false sd1 w1 = Polling sd1 w'
    ∧ logged w' = logged w1 ∧ writes w' = writes w1 ∧ fs w' = fs w1.
Proof.
  intros Hnd Hc.
  assert (ListUnits (conn sd) = (steady_units (conn sd), None, conn sd)) as HL
    by done.
  rewrite (cycle_listing_ok_eq encode _ _ _ _ _ HL) in Hc.
  apply finish_cases in Hc as (Hsd & _).
  assert (conn sd1 = conn sd ∧ state sd1 = snapshot_of (steady_units (conn sd)))
    as [Hconn Hst] by (by subst sd1).
  clear Hsd HL. revert w1. induction fuel as [|fuel IH]; intros w1.
  - exists w1. by repeat split.
  - assert (ListUnits (conn sd1) = (steady_units (conn sd), None, conn sd1))
      as HL by (simpl; by rewrite Hconn).
    simpl. rewrite (cycle_listing_ok_eq encode _ _ _ _ _ HL).
    destruct (settled_pass (bootstrap sd1 && false) _ sd1 Hnd Hst) as [-> ->].
    simpl. rewrite add_logs_nil.
    assert (set_state (snapshot_of (steady_units (conn sd)))
                      (set_conn (conn sd1) sd1) = sd1) as ->.
    { rewrite <- Hst. by destruct sd1. }
    destruct (IH (Sleep (interval sd1) w1)) as (w' & HN & Hl & Hw & Hf).
    exists w'. by repeat split.
Qed.

(** ** Beyond the claims: the state file and the options *)

Section Files.
Context {C : Type} `{Conn C}.
Variable encode : gmap string Unit → list byte.
Variable decode : list byte → gmap string Unit → decoded.
Implicit Types (sd : Systemd C) (w : World) (f : file).



(** X7.  After [load] the bootstrap flag is raised exactly when it was
    raised before or there is no file at the state path: a file that is
    empty, unreadable, out of reach or corrupt never raises it. *)
Theorem load_raises_bootstrap_iff_absent sd w :
  bootstrap (load decode sd w).1.2
  = bootstrap sd || bool_decide (fs w !! statePath sd = None).
Proof.
  unfold load, Lstat, OpenFile_RDONLY.
  destruct (fs w !! statePath sd) as [[f|]|] eqn:Hf; simpl.
  - rewrite orb_false_r. destruct (Nat.eqb (length (data f)) 0); [done|].
    destruct (readable f); [|done].
    by destruct (decode (data f) (state sd)).
  - by rewrite orb_false_r.
  - by rewrite orb_true_r.
Qed.

Lemma load_reads_only sd w :
  let w' := (load decode sd w).2 in
  fs w' = fs w ∧ writes w' = writes w ∧ slept w' = slept w.
Proof.
  unfold load. destruct (Lstat w (statePath sd)) as [n|e].
  - destruct (Nat.eqb n 0); [done|].
    destruct (OpenFile_RDONLY w (statePath sd)) as [bs|e]; [|done].
    by destruct (decode bs (state sd)).
  - destruct (IsNotExist e); [|done]. unfold logf. simpl.
    by destruct (logger sd).
Qed.

(** X8.  [New] never changes a file: whatever [dbus.New] returned,
    whatever the options and whatever is at the state path, every path
    holds afterwards what it held before, nothing has been written by
    [store], and there was no sleep.  A missing state file is still
    missing after [New]. *)
Theorem New_only_reads (dial : C + error) opts w :
  let w' := (New decode dial opts w).2 in
  fs w' = fs w ∧ writes w' = writes w ∧ slept w' = slept w.
Proof.
  destruct dial as [c|e]; [|done]. rewrite New_load.
  pose proof (load_reads_only (configured c opts) w) as Hl.
  by destruct (load decode (configured c opts) w) as [[[e|] sd'] w'].
Qed.

Lemma package_option_keeps (opt : Option (C:=C)) sd :
  package_option opt →
  conn (opt sd) = conn sd ∧ state (opt sd) = state sd
  ∧ bootstrap (opt sd) = bootstrap sd.
Proof. by intros []. Qed.

(** X14.  The options of the package only set the state path, the logger
    and the interval: with any list of them [New] hands [load] the given
    connection, an empty map and [bootstrap] false; and when an option is
    given last it wins over earlier ones of its kind. *)
Theorem options_set_configuration_only (c : C) opts :
  Forall package_option opts →
  conn (configured c opts) = c
  ∧ state (configured c opts) = ∅
  ∧ bootstrap (configured c opts) = false
  ∧ (∀ path, statePath (configured c (opts ++ [WithStateFile path])) = path)
  ∧ (∀ l, logger (configured c (opts ++ [WithLogger l])) = l)
  ∧ (∀ d, interval (configured c (opts ++ [WithInterval d])) = d).
Proof.
  intros Hall. unfold configured.
  assert (∀ sd0 : Systemd C,
             let sd := foldl (fun sd opt => opt sd) sd0 opts in
             conn sd = conn sd0 ∧ state sd = state sd0
             ∧ bootstrap sd = bootstrap sd0) as Hkeep.
  { induction Hall as [|opt opts Hopt Hall IH]; intros sd0; [done|].
    simpl. destruct (IH (opt sd0)) as (-> & -> & ->).
    by apply package_option_keeps. }
  destruct (Hkeep (mkSystemd c ∅ DefaultStateFile
                             (Some (mkLogger "[systemd] ")) DefaultInterval
                             false)) as (Hc & Hs & Hb).
  split; [done|]. split; [done|]. split; [done|].
  repeat split; intros; by rewrite foldl_app.
Qed.

(** X12.  [isEqual] compares every field, while the status line shows only
    the name and the three states.  So when the map holds one unit and the
    listing shows it with the same name and states but another value in
    some other field, the pass counts it as changed: it raises [flush],
    replaces the record, and logs a line that reads the same as the line
    of the record it replaces. *)
Theorem unseen_field_change_is_logged (s s' : UnitStatus) sd w l :
  state sd = {[ Path s := mkUnit s ]} →
  logger sd = Some l →
  Path s' = Path s → Name s' = Name s → ActiveState s' = ActiveState s →
  LoadState s' = LoadState s → SubState s' = SubState s →
  s' ≠ s →
  ∃ sd' w',
    diff false [s'] sd w = (sd', w', true)
    ∧ logged w' = logged w ++ [status_line s]
    ∧ state sd' = {[ Path s := mkUnit s' ]}.
Proof.
  intros Hst Hl Hp Hn Ha Hlo Hsu Hne. rewrite diff_eq.
  assert (differs (state sd) s' = true) as Hd.
  { unfold differs. apply bool_decide_eq_true_2.
    rewrite Hst, Hp, lookup_singleton_eq. congruence. }
  assert (overlay (state sd) [s'] = {[ Path s := mkUnit s' ]}) as Hov.
  { unfold overlay. simpl. rewrite Hst, Hp. apply insert_singleton_eq. }
  assert (unlisted [s'] (map_to_list (overlay (state sd) [s'])) = []) as Hun.
  { rewrite Hov, map_to_list_singleton. unfold unlisted.
    rewrite filter_cons_False; [done|]. simpl. rewrite Hp.
    by rewrite String.eqb_refl. }
  eexists _, _. split; [|split].
  - f_equal. unfold pass_flush. simpl. by rewrite Hd.
  - simpl. unfold pass_lines. rewrite Hun. simpl. rewrite Hd. simpl.
    unfold heard. rewrite Hl. simpl.
    unfold status_line. by rewrite Hn, Ha, Hlo, Hsu.
  - simpl. unfold snapshot_of. simpl. rewrite Hp. apply insert_empty.
Qed.

End Files.

Section Caller.
Context {C : Type} `{Conn C}.
Variable encode : gmap string Unit → list byte.
Variable decode : list byte → gmap string Unit → decoded.
Implicit Types (sd : Systemd C) (w : World) (f : file).

(** X16.  Whenever [load] returns an error there is something at the
    state path, and [load] has not raised [bootstrap], not logged, and not
    changed the connection, the state path, the logger or the interval:
    only the map may differ, by what the decoder had put there before it
    failed. *)
Theorem load_error_changes_map_only sd w e sd' w' :
  load decode sd w = (Some e, sd', w') →
  w' = w
  ∧ fs w !! statePath sd ≠ None
  ∧ bootstrap sd' = bootstrap sd
  ∧ conn sd' = conn sd ∧ statePath sd' = statePath sd
  ∧ logger sd' = logger sd ∧ interval sd' = interval sd.
Proof.
  unfold load, Lstat, OpenFile_RDONLY.
  destruct (fs w !! statePath sd) as [[f|]|] eqn:Hf; simpl.
  - destruct (Nat.eqb (length (data f)) 0); [done|].
    destruct (readable f).
    + destruct (decode (data f) (state sd)) as [m|m]; [done|].
      by intros [= <- <- <-].
    + by intros [= <- <- <-].
  - by intros [= <- <- <-].
  - done.
Qed.

(** X17.  An empty listing that comes without an error empties the map:
    the pass logs one "deleted" line for every entry the map held, in some
    order, also when the pass is silenced, and leaves the empty map; when
    the map was empty already, nothing but the connection and the sleep
    changes. *)
Theorem empty_listing_deletes_everything first sd w c :
  ListUnits (conn sd) = ([], None, c) →
  state (cycle encode first sd w).1.2 = ∅
  ∧ (∃ gone,
        logged (cycle encode first sd w).2
        = logged w ++ heard sd (deleted_line <$> gone)
        ∧ gone ≡ₚ (map_to_list (state sd)).*2)
  ∧ (state sd = ∅ →
     cycle encode first sd w = (Slept, set_conn c sd, Sleep (interval sd) w)).
Proof.
  intros HL. rewrite (cycle_listing_ok_eq encode _ _ _ _ _ HL).
  assert (unlisted [] (map_to_list (state sd)) = map_to_list (state sd))
    as Hun.
  { unfold unlisted. induction (map_to_list (state sd)) as [|e l IH]; [done|].
    rewrite filter_cons_True by done. by rewrite IH. }
  assert (pass_lines (bootstrap sd && first) [] sd
          = heard sd (deleted_line <$> (map_to_list (state sd)).*2)) as Hlines.
  { unfold pass_lines. change (overlay (state sd) []) with (state sd).
    rewrite Hun. simpl. unfold heard.
    by destruct (bootstrap sd && first), (logger sd). }
  rewrite Hlines. split; [|split].
  - destruct (finish encode _) as [[r sd'] w'] eqn:Hf.
    apply finish_cases in Hf as (-> & _). done.
  - destruct (finish encode _) as [[r sd'] w'] eqn:Hf.
    apply finish_cases in Hf as (_ & Hlog & _). simpl. rewrite Hlog.
    by eexists.
  - intros Hst. unfold pass_flush.
    change (overlay (state sd) []) with (state sd). rewrite Hun, Hst.
    rewrite map_to_list_empty. simpl.
    unfold heard. destruct (logger sd); simpl; rewrite add_logs_nil;
      f_equal; f_equal; destruct sd; simpl in *; by subst.
Qed.

End Caller.

(** ** Instances of the properties beyond the claims *)

Lemma nil_logger_is_silent_witness :
  logged (outcome_world
            (Next_loop Codec.encode 2 true
               (WithLogger None (watcher [([ssh_running], None)] ∅ false))
               empty_world)) = [].
Proof.
  exact (proj2 (nil_logger_is_silent Codec.encode Codec.decode
                  (WithLogger None (watcher [([ssh_running], None)] ∅ false))
                  empty_world eq_refl) 2 true).
Defined.

Lemma pass_leaves_listing_map_witness :
  state (cycle Codec.encode false
               (watcher [([ssh_running; ssh_failed], None)] ssh_and_cron false)
               empty_world).1.2
  = snapshot_of [ssh_running; ssh_failed].
Proof.
  assert (ListUnits (conn (watcher [([ssh_running; ssh_failed], None)]
                                   ssh_and_cron false))
          = ([ssh_running; ssh_failed], None, mkScript [])) as HL
    by reflexivity.
  exact (pass_leaves_listing_map Codec.encode false _ empty_world _ _ HL).
Defined.

Lemma silenced_pass_logs_deletions_witness :
  ∃ gone,
    logged (cycle Codec.encode true
                  (watcher [([cron_running], None)] ssh_only true)
                  empty_world).2
    = deleted_line <$> gone
    ∧ gone ≡ₚ [mkUnit ssh_running].
Proof.
  assert (ListUnits (conn (watcher [([cron_running], None)] ssh_only true))
          = ([cron_running], None, mkScript [])) as HL by reflexivity.
  destruct (silenced_pass_logs_deletions Codec.encode
              (watcher [([cron_running], None)] ssh_only true) empty_world
              [cron_running] (mkScript []) eq_refl HL)
    as (gone & Hlog & Hgone).
  exists gone. split; [exact Hlog|].
  rewrite Hgone. vm_compute. reflexivity.
Defined.

Lemma sleeps_once_per_pass_witness :
  ∃ sd' w',
    passes Codec.encode 2 true
           (watcher [([ssh_running], None); ([ssh_running], None)] ∅ false)
           empty_world = Some (false, sd', w')
    ∧ slept w' = [DefaultInterval; DefaultInterval].
Proof.
  assert (∃ sd' w',
             passes Codec.encode 2 true
               (watcher [([ssh_running], None); ([ssh_running], None)] ∅ false)
               empty_world = Some (false, sd', w')) as (sd' & w' & Hp).
  { eexists _, _. vm_compute. reflexivity. }
  exists sd', w'. split; [exact Hp|].
  exact (proj1 (sleeps_once_per_pass Codec.encode 2 true _ _ _ _ _ Hp)).
Defined.

Lemma flush_iff_map_changed_witness :
  ∃ sd' w',
    cycle Codec.encode false (watcher [([ssh_running], None)] ∅ false)
          empty_world = (Slept, sd', w')
    ∧ writes w' = [(DefaultStateFile, Codec.encode ssh_only)].
Proof.
  assert (∃ sd' w',
             cycle Codec.encode false
                   (watcher [([ssh_running], None)] ∅ false) empty_world
             = (Slept, sd', w')) as (sd' & w' & Hc).
  { eexists _, _. vm_compute. reflexivity. }
  assert (ListUnits (conn (watcher [([ssh_running], None)] ∅ false))
          = ([ssh_running], None, mkScript [])) as HL by reflexivity.
  assert (NoDup (Path <$> [ssh_running])) as Hnd
    by (apply (bool_decide_unpack _); vm_compute; exact I).
  exists sd', w'. split; [exact Hc|].
  destruct (flush_iff_map_changed Codec.encode false _ empty_world
              [ssh_running] (mkScript []) sd' w' Hnd HL Hc)
    as [[Hst _]|[_ Hw]].
  - exfalso. vm_compute in Hst. discriminate Hst.
  - exact Hw.
Defined.

Lemma steady_listing_settles_witness :
  ∃ sd1 w1 w',
    cycle Codec.encode true
          (steady_watcher [ssh_running; cron_running] ∅ true) empty_world
    = (Slept, sd1, w1)
    ∧ Next_loop Codec.encode 3 false sd1 w1 = Polling sd1 w'
    ∧ logged w' = logged w1 ∧ writes w' = writes w1.
Proof.
  assert (∃ sd1 w1,
             cycle Codec.encode true
                   (steady_watcher [ssh_running; cron_running] ∅ true)
                   empty_world = (Slept, sd1, w1)) as (sd1 & w1 & Hc).
  { eexists _, _. vm_compute. reflexivity. }
  assert (NoDup (Path <$> [ssh_running; cron_running])) as Hnd
    by (apply (bool_decide_unpack _); vm_compute; exact I).
  destruct (steady_listing_settles Codec.encode true
              (steady_watcher [ssh_running; cron_running] ∅ true)
              empty_world sd1 w1 3 Hnd Hc) as (w' & HN & Hl & Hw & _).
  exists sd1, w1, w'. split; [exact Hc|]. split; [exact HN|].
  split; [exact Hl | exact Hw].
Defined.


Lemma options_set_configuration_only_witness :
  state (configured (mkScript [])
           [WithStateFile "a.state"; WithInterval Millisecond;
            WithLogger None]) = ∅
  ∧ statePath (configured (mkScript [])
                 ([WithStateFile "a.state"; WithInterval Millisecond;
                   WithLogger None] ++ [WithStateFile "b.state"]))
    = "b.state".
Proof.
  destruct (options_set_configuration_only (mkScript [])
              [WithStateFile "a.state"; WithInterval Millisecond;
               WithLogger None]) as (_ & Hst & _ & Hp & _).
  - repeat constructor.
  - split; [exact Hst | exact (Hp "b.state")].
Defined.

Lemma unseen_field_change_is_logged_witness :
  ∃ sd' w',
    diff false [ssh_described] (watcher [] ssh_only false) empty_world
    = (sd', w', true)
    ∧ logged w' = ["ssh.service active=active load=loaded sub=running"].
Proof.
  destruct (unseen_field_change_is_logged ssh_running ssh_described
              (watcher [] ssh_only false) empty_world
              (mkLogger "[systemd] "))
    as (sd' & w' & Hd & Hl & _); try reflexivity.
  - discriminate.
  - exists sd', w'. split; [exact Hd | exact Hl].
Defined.

Lemma empty_listing_deletes_everything_witness :
  state (cycle Codec.encode true (watcher [([], None)] ssh_and_cron true)
               empty_world).1.2 = ∅.
Proof.
  assert (ListUnits (conn (watcher [([], None)] ssh_and_cron true))
          = ([], None, mkScript [])) as HL by reflexivity.
  exact (proj1 (empty_listing_deletes_everything Codec.encode true _
                  empty_world _ HL)).
Defined.

Lemma load_error_changes_map_only_witness :
  ∃ e sd',
    load Codec.decode (watcher [] ∅ false) (world_with cut_file)
    = (Some e, sd', world_with cut_file)
    ∧ state sd' = ssh_only
    ∧ bootstrap sd' = false.
Proof.
  assert (∃ e sd' w',
             load Codec.decode (watcher [] ∅ false) (world_with cut_file)
             = (Some e, sd', w') ∧ state sd' = ssh_only)
    as (e & sd' & w' & Hl & Hst).
  { eexists _, _, _. split; vm_compute; reflexivity. }
  destruct (load_error_changes_map_only Codec.decode _ _ _ _ _ Hl)
    as (Hw & _ & Hb & _).
  exists e, sd'. rewrite Hw in Hl. split; [exact Hl|].
  split; [exact Hst | exact Hb].
Defined.
